(** * pywayland.message: marshalling of wl_message arguments

    A shallow embedding of [src/pywayland/message.py]: the module regular
    expression [re_arg], the constructor [Message.__init__] and the two
    codec methods [Message.c_to_arguments] (raw argument array to Python
    values) and [Message.arguments_to_c] (Python values to raw argument
    array), over an explicit model of the cffi memory the methods touch.

    Conventions.
    - A Python [str] is the list of its code points, a [bytes] object the
      list of its bytes, both as [Z].
    - A C pointer is an address in [Z]; [ffi.NULL] is address [0].
    - [union wl_argument] is one 8-byte cell (LP64, little endian); its
      members are views of the cell: the 32-bit members [i], [u], [f], [h]
      and [n] are the low four bytes, the pointer members [s], [o] and [a]
      the whole cell.
    - A Python exception is a value of [exn]; a call returns [Return v] or
      [Raise e].

    What the model takes from cffi and Python 3.
    - [ffi.new] returns zero-initialised memory at a fresh address that
      is not NULL; [ffi.new('void []', n)] raises [ValueError]: cffi
      refuses an array whose items have no size.
    - Indexing an array cdata past its end raises [IndexError].
    - [args_ptr[i]] is a cdata of type [union wl_argument] located at the
      address of the cell; cdata that are not primitive compare by
      address, so [arg_ptr == ffi.NULL] asks whether that address is NULL.
    - Assigning to a 32-bit member raises [OverflowError] for an integer
      outside the C type and [TypeError] for a value that is no integer.
    - [ffi.string] on a NULL [char *] raises [RuntimeError]; on a live
      allocation it returns the bytes before the first zero byte.
    - [str.encode()] and [bytes.decode()] are strict UTF-8. *)

From Stdlib Require Import ZArith QArith Qabs Lia String Ascii.
From stdpp Require Import base option list gmap.

Local Open Scope Z_scope.

(** ** Python strings *)

Abbreviation pystr := (list Z).

Definition ord (a : ascii) : Z := Z.of_N (N_of_ascii a).

(** The Python literal written with the characters of [s]. *)
Definition str (s : string) : pystr := map ord (list_ascii_of_string s).

Definition elem (c : Z) (chars : pystr) : bool := existsb (Z.eqb c) chars.

(** [str.lstrip(chars)], [str.rstrip(chars)], [str.strip(chars)]: [chars]
    is the set of characters removed from the ends. *)
Fixpoint lstrip (chars s : pystr) : pystr :=
  match s with
  | [] => []
  | c :: t => if elem c chars then lstrip chars t else s
  end.

Definition rstrip (chars s : pystr) : pystr := rev (lstrip chars (rev s)).

Definition strip (chars s : pystr) : pystr := rstrip chars (lstrip chars s).

(** ** The regular expression [re_arg]

    [re_arg = re.compile(r"(\??)([uifsonah])")]: group 1 is a greedy
    optional question mark, group 2 one letter of the class. *)

Definition kind_letters : pystr := str "uifsonah".

Definition qmark : Z := ord "?".

(** One match object: [groups()] is the pair [(null, sig)]; [null] is the
    string [""] or ["?"], [sig] the one-letter string of group 2, kept as
    its code point. *)
Definition groups := (pystr * Z)%type.

(** [re_arg.match] anchored at the head of [s]: the groups and the text
    after the match. The greedy branch of [\??] is tried first; when the
    class then fails the engine backtracks to the empty branch. *)
Definition re_arg_match (s : pystr) : option (groups * pystr) :=
  let greedy :=
    match s with
    | q :: c :: rest =>
        if (q =? qmark) && elem c kind_letters
        then Some (([qmark], c), rest) else None
    | _ => None
    end in
  match greedy with
  | Some r => Some r
  | None =>
      match s with
      | c :: rest =>
          if elem c kind_letters then Some (([], c), rest) else None
      | [] => None
      end
  end.

(** [re_arg.finditer(s)] (and [re_arg.findall(s)], which lists the same
    group tuples): scan from the left; where the pattern matches, yield
    the match and go on after it; elsewhere move one character on.  The
    two branches of [re_arg_match] are written out so that the recursion
    is structural; [finditer_unfold] below relates the two. *)
Fixpoint finditer (s : pystr) : list groups :=
  match s with
  | [] => []
  | c :: t =>
      let plain :=
        if elem c kind_letters then ([], c) :: finditer t else finditer t in
      match t with
      | d :: t' =>
          if (c =? qmark) && elem d kind_letters
          then ([qmark], d) :: finditer t'
          else plain
      | [] => plain
      end
  end.

Definition findall (s : pystr) : list groups := finditer s.

(** ** Exceptions and results *)

Inductive exn :=
| Exception           (* [raise Exception], the null checks of the codec *)
| StopIteration       (* [next(arg_iter)] on an exhausted iterator *)
| IndexError          (* cffi: index past the end of an array cdata *)
| OverflowError       (* cffi: the integer does not fit the C type *)
| TypeError           (* cffi or Python: a value of the wrong type *)
| ValueError          (* cffi: an array type whose items have no size *)
| AttributeError      (* the value has no [encode] or no [_ptr] *)
| RuntimeError        (* cffi: [ffi.string] on a NULL pointer *)
| UnicodeEncodeError  (* [str.encode]: a lone surrogate *)
| UnicodeDecodeError  (* [bytes.decode]: not UTF-8 *)
| MemoryFault.        (* a read through a pointer to no live block:
                         undefined behaviour in C, reported as a fault *)

Inductive result (A : Type) :=
| Return (a : A)
| Raise (e : exn).
Arguments Return {A} a.
Arguments Raise {A} e.

#[global] Instance result_ret : MRet result := λ A a, Return a.
#[global] Instance result_bind : MBind result := λ A B f r,
  match r with Return a => f a | Raise e => Raise e end.

(** ** Python values *)

(** An [Interface] class: its protocol name and its
    [struct wl_interface *]. *)
Module Interface.
Record t := { name : pystr; _ptr : Z }.
End Interface.

(** An object passed as an [o] argument: its [_ptr] and the interface
    class it belongs to. *)
Module Proxy.
Record t := { _ptr : Z; interface : Interface.t }.
End Proxy.

(** The values passed to and returned by the codec.  A [float] is the
    rational it denotes; infinities and NaN are outside the model.
    [bool] (a subclass of [int]) and objects with [__int__] or
    [__float__] are not modelled. *)
Inductive value :=
| VNone
| VInt (z : Z)
| VFloat (q : Q)
| VStr (s : pystr)
| VBytes (b : list Z)
| VObj (o : Proxy.t).

#[global] Instance interface_eq_dec : EqDecision Interface.t.
Proof. solve_decision. Defined.
#[global] Instance proxy_eq_dec : EqDecision Proxy.t.
Proof. solve_decision. Defined.

(** Python [a == b] on these values: numbers compare by value across
    [int] and [float], strings and bytes by content, objects by
    identity. *)
Definition py_eq (a b : value) : bool :=
  match a, b with
  | VNone, VNone => true
  | VInt x, VInt y => x =? y
  | VInt x, VFloat q => Qeq_bool (inject_Z x) q
  | VFloat q, VInt x => Qeq_bool q (inject_Z x)
  | VFloat p, VFloat q => Qeq_bool p q
  | VStr s, VStr t => bool_decide (s = t)
  | VBytes s, VBytes t => bool_decide (s = t)
  | VObj o, VObj p => bool_decide (o = p)
  | _, _ => false
  end.

(** [==] on lists: same length and equal items. *)
Fixpoint py_list_eq (l1 l2 : list value) : bool :=
  match l1, l2 with
  | [], [] => true
  | a :: t1, b :: t2 => py_eq a b && py_list_eq t1 t2
  | _, _ => false
  end.

(** ** UTF-8: [str.encode()] and [bytes.decode()] *)

Definition utf8_char (c : Z) : option (list Z) :=
  if c <? 0 then None
  else if c <? 0x80 then Some [c]
  else if c <? 0x800 then Some [0xC0 + c / 64; 0x80 + c mod 64]
  else if c <? 0x10000 then
    if (0xD800 <=? c) && (c <? 0xE000) then None
    else Some [0xE0 + c / 4096; 0x80 + (c / 64) mod 64; 0x80 + c mod 64]
  else if c <? 0x110000 then
    Some [0xF0 + c / 262144; 0x80 + (c / 4096) mod 64;
          0x80 + (c / 64) mod 64; 0x80 + c mod 64]
  else None.

Fixpoint utf8_encode (s : pystr) : option (list Z) :=
  match s with
  | [] => Some []
  | c :: t =>
      match utf8_char c, utf8_encode t with
      | Some bs, Some r => Some (bs ++ r)
      | _, _ => None
      end
  end.

Definition str_encode (s : pystr) : result (list Z) :=
  match utf8_encode s with
  | Some bs => Return bs
  | None => Raise UnicodeEncodeError
  end.

Definition in_range (lo hi b : Z) : bool := (lo <=? b) && (b <=? hi).

Definition cont (b : Z) : bool := in_range 0x80 0xBF b.

(** Strict decoding: overlong forms, surrogates, code points above
    U+10FFFF and truncated sequences are rejected. *)
Fixpoint utf8_decode (bs : list Z) : option pystr :=
  match bs with
  | [] => Some []
  | b0 :: r1 =>
      if in_range 0 0x7F b0 then cons b0 <$> utf8_decode r1
      else if in_range 0xC2 0xDF b0 then
        match r1 with
        | b1 :: r2 =>
            if cont b1
            then cons ((b0 - 0xC0) * 64 + (b1 - 0x80)) <$> utf8_decode r2
            else None
        | _ => None
        end
      else if in_range 0xE0 0xEF b0 then
        match r1 with
        | b1 :: b2 :: r3 =>
            if in_range (if b0 =? 0xE0 then 0xA0 else 0x80)
                        (if b0 =? 0xED then 0x9F else 0xBF) b1 && cont b2
            then cons (((b0 - 0xE0) * 64 + (b1 - 0x80)) * 64 + (b2 - 0x80))
                   <$> utf8_decode r3
            else None
        | _ => None
        end
      else if in_range 0xF0 0xF4 b0 then
        match r1 with
        | b1 :: b2 :: b3 :: r4 =>
            if in_range (if b0 =? 0xF0 then 0x90 else 0x80)
                        (if b0 =? 0xF4 then 0x8F else 0xBF) b1
               && cont b2 && cont b3
            then cons ((((b0 - 0xF0) * 64 + (b1 - 0x80)) * 64 + (b2 - 0x80)) * 64
                       + (b3 - 0x80))
                   <$> utf8_decode r4
            else None
        | _ => None
        end
      else None
  end.

Definition bytes_decode (bs : list Z) : result pystr :=
  match utf8_decode bs with
  | Some s => Return s
  | None => Raise UnicodeDecodeError
  end.

(** ** cffi memory *)

Definition NULL : Z := 0.

(** What an [ffi.new] allocation holds. *)
Inductive block :=
| BChars (bs : list Z)                 (* [char []]: its bytes *)
| BArray (size alloc data : Z)         (* [struct wl_array] *)
| BMessage (name signature types : Z)  (* [struct wl_message] *)
| BTypes (ts : list Z).                (* [struct wl_interface* []] *)

(** The interpreter state the module touches: the next free address
    (positive in every state that arises, the allocator never hands out
    NULL), the live allocations and the module global [weakkeydict],
    keyed by the address of the key cdata and holding the addresses of
    the cdata kept alive. *)
Record state := {
  next : Z;
  mem : gmap Z block;
  weakkeydict : gmap Z (list Z)
}.

Definition M (A : Type) : Type := state → result (A * state).

#[global] Instance M_ret : MRet M := λ A a st, Return (a, st).
#[global] Instance M_bind : MBind M := λ A B f m st,
  match m st with
  | Return (a, st') => f a st'
  | Raise e => Raise e
  end.

Definition raise {A} (e : exn) : M A := λ _, Raise e.

Definition liftR {A} (r : result A) : M A := λ st,
  match r with Return a => Return (a, st) | Raise e => Raise e end.

(** [ffi.new]: a fresh address holding [b]; [size] is the size of the
    allocation in bytes, and no two allocations share an address. *)
Definition ffi_new (size : Z) (b : block) : M Z := λ st,
  Return (next st,
          {| next := next st + Z.max 1 size;
             mem := <[next st := b]> (mem st);
             weakkeydict := weakkeydict st |}).

(** [ffi.new('void []', n)]: [void] has no size, and cffi raises
    ValueError ("array item of unknown size") for the array type. *)
Definition ffi_new_void_array (n : nat) : M Z := λ _, Raise ValueError.

(** Assignment to the fields or items of the allocation at [p]. *)
Definition store (p : Z) (b : block) : M unit := λ st,
  Return (tt, {| next := next st;
                 mem := <[p := b]> (mem st);
                 weakkeydict := weakkeydict st |}).

(** [weakkeydict[key] = refs]. *)
Definition weakkeydict_set (key : Z) (refs : list Z) : M unit := λ st,
  Return (tt, {| next := next st;
                 mem := mem st;
                 weakkeydict := <[key := refs]> (weakkeydict st) |}).

(** The bytes of the C string in [bs]: up to the first zero byte. *)
Fixpoint c_string (bs : list Z) : list Z :=
  match bs with
  | [] => []
  | b :: t => if b =? 0 then [] else b :: c_string t
  end.

(** [ffi.string(p)] for a [char *]. *)
Definition ffi_string (p : Z) (st : state) : result (list Z) :=
  if p =? NULL then Raise RuntimeError
  else match mem st !! p with
       | Some (BChars bs) => Return (c_string bs)
       | _ => Raise MemoryFault
       end.

(** ** [union wl_argument] *)

(** A cdata [union wl_argument []]: the address of its first cell and
    its cells. *)
Record wl_arguments := { addr : Z; cells : list Z }.

Definition sizeof_wl_argument : Z := 8.

(** [ffi.new('union wl_argument []', nargs)]: zero-initialised. *)
Definition ffi_new_arguments (nargs : nat) : M wl_arguments := λ st,
  Return ({| addr := next st; cells := replicate nargs 0 |},
          {| next := next st + Z.max 1 (sizeof_wl_argument * Z.of_nat nargs);
             mem := mem st;
             weakkeydict := weakkeydict st |}).

(** Two's complement reading of the low 32 bits. *)
Definition wrap32 (x : Z) : Z :=
  let u := x mod 2 ^ 32 in if u <? 2 ^ 31 then u else u - 2 ^ 32.

(** Reads of the members. *)
Definition get_i (c : Z) : Z := wrap32 c.
Definition get_u (c : Z) : Z := c mod 2 ^ 32.
Definition get_f (c : Z) : Z := wrap32 c.
Definition get_h (c : Z) : Z := wrap32 c.
Definition get_s (c : Z) : Z := c.

(** A write of a 32-bit member keeps the high four bytes of the cell. *)
Definition set_low32 (v c : Z) : Z := c / 2 ^ 32 * 2 ^ 32 + v mod 2 ^ 32.

(** A write of a pointer member replaces the cell. *)
Definition set_ptr (p c : Z) : Z := p.

(** [args_ptr[i].member = ...] on an array cdata: cffi raises
    [IndexError] past the end. *)
Definition set_member (args_ptr : list Z) (i : nat) (f : Z → Z)
  : result (list Z) :=
  match args_ptr !! i with
  | Some c => Return (<[i := f c]> args_ptr)
  | None => Raise IndexError
  end.

(** cffi's conversion of a Python value to [int32_t] and [uint32_t]. *)
Definition to_int32 (v : value) : result Z :=
  match v with
  | VInt z => if (- 2 ^ 31 <=? z) && (z <? 2 ^ 31) then Return z
              else Raise OverflowError
  | _ => Raise TypeError
  end.

Definition to_uint32 (v : value) : result Z :=
  match v with
  | VInt z => if (0 <=? z) && (z <? 2 ^ 32) then Return z
              else Raise OverflowError
  | _ => Raise TypeError
  end.

(** ** libwayland's fixed-point helpers *)

(** Nearest integer, ties to the even one. *)
Definition round_half_even (q : Q) : Z :=
  let a := Qnum q in
  let d := Z.pos (Qden q) in
  let fl := a / d in
  let r := a mod d in
  if 2 * r <? d then fl
  else if d <? 2 * r then fl + 1
  else if Z.even fl then fl else fl + 1.

(** Modelled from the spec: [lib.wl_fixed_from_int] belongs to the
    protocol library behind [pywayland.lib], whose code is not part of
    this module.  The spec has "an integer (scaled by 256 with no
    rounding loss)"; the argument is a C [int] and the result the 32-bit
    [wl_fixed_t]. *)
Definition wl_fixed_from_int (arg : value) : result Z :=
  i ← to_int32 arg; Return (wrap32 (i * 256)).

(** Modelled from the spec: [lib.wl_fixed_from_double] belongs to the
    same library.  The spec has "a floating value (scaled by 256 and
    rounded to nearest integer per the standard 24.8 wire convention)";
    the result is the 32-bit [wl_fixed_t].  (An [int] never reaches
    this call: [isinstance(arg, int)] sends it to [wl_fixed_from_int].) *)
Definition wl_fixed_from_double (arg : value) : result Z :=
  match arg with
  | VFloat q => Return (wrap32 (round_half_even (q * 256)))
  | VInt z => Return (wrap32 (z * 256))
  | _ => Raise TypeError
  end.

(** Modelled from the spec: [lib.wl_fixed_to_double] belongs to the
    same library.  The spec has "float64 = raw/256.0". *)
Definition wl_fixed_to_double (f : Z) : Q := f # 256.

(** ** [class Message] *)

(** The function a message wraps; only its [__name__] is read. *)
Record pyfunction := { __name__ : pystr }.

Record Message := {
  _func : pyfunction;
  name : pystr;
  signature : pystr;
  types : list (option Interface.t);
  _ptr : Z
}.

(** [_type._ptr if _type else ffi.NULL]: a class is true, [None] is not. *)
Definition type_ptr (_type : option Interface.t) : Z :=
  match _type with
  | Some t => Interface._ptr t
  | None => NULL
  end.

(** The loop [for i, _type in enumerate(self.types)] over the items of
    the [struct wl_interface* []]. *)
Fixpoint fill_types (i : nat) (ts : list (option Interface.t)) (arr : list Z)
  : result (list Z) :=
  match ts with
  | [] => Return arr
  | _type :: ts' =>
      arr' ← set_member arr i (λ _, type_ptr _type);
      fill_types (S i) ts' arr'
  end.

(** [Message.__init__(self, func, signature, types)]. *)
Definition Message_init (func : pyfunction) (signature : pystr)
    (types : list (option Interface.t)) : M Message :=
  let self_name := strip (str "_") (__name__ func) in
  _ptr ← ffi_new 24 (BMessage NULL NULL NULL);
  name_bytes ← liftR (str_encode self_name);
  name ← ffi_new (Z.of_nat (length name_bytes) + 1) (BChars (name_bytes ++ [0]));
  store _ptr (BMessage name NULL NULL);;
  signature_bytes ← liftR (str_encode signature);
  signature' ← ffi_new (Z.of_nat (length signature_bytes) + 1)
                 (BChars (signature_bytes ++ [0]));
  store _ptr (BMessage name signature' NULL);;
  types' ← ffi_new (8 * Z.of_nat (length types))
             (BTypes (replicate (length types) NULL));
  store _ptr (BMessage name signature' types');;
  arr ← liftR (fill_types 0 types (replicate (length types) NULL));
  store types' (BTypes arr);;
  weakkeydict_set _ptr [name; signature'; types'];;
  mret {| _func := func; name := self_name; signature := signature;
          types := types; _ptr := _ptr |}.

(** ** [Message.c_to_arguments] *)

(** [not null] for the string of group 1. *)
Definition py_not (s : pystr) : bool :=
  match s with [] => true | _ => false end.

(** The body of the loop of [c_to_arguments] at index [i]: [args] is the
    list built so far.  [arg_ptr = args_ptr[i]] is the cell itself (a
    cdata of type [union wl_argument], at the address of the cell), and
    cffi compares it with [ffi.NULL] by address. *)
Definition decode_arg (st : state) (args_ptr : wl_arguments)
    (i : nat) (sig_match : groups) (args : list value) : result (list value) :=
  match cells args_ptr !! i with
  | None => Raise IndexError
  | Some arg_ptr =>
      let '(null, sig) := sig_match in
      if sig =? ord "i" then Return (args ++ [VInt (get_i arg_ptr)])
      else if sig =? ord "u" then Return (args ++ [VInt (get_u arg_ptr)])
      else if sig =? ord "f" then
        let f := wl_fixed_to_double (get_f arg_ptr) in
        Return (args ++ [VFloat f])
      else if sig =? ord "h" then Return (args ++ [VInt (get_h arg_ptr)])
      else if sig =? ord "s" then
        if addr args_ptr + sizeof_wl_argument * Z.of_nat i =? NULL then
          if py_not null then Raise Exception
          else Return (args ++ [VNone])
        else
          bs ← ffi_string (get_s arg_ptr) st;
          s ← bytes_decode bs;
          Return (args ++ [VStr s])
      else if (sig =? ord "o") || (sig =? ord "n") then Return args
      else if sig =? ord "a" then Return args
      else Return args
  end.

(** [for i, sig_match in enumerate(...)], from index [i] on. *)
Fixpoint decode_loop (st : state) (args_ptr : wl_arguments) (i : nat)
    (matches : list groups) (args : list value) : result (list value) :=
  match matches with
  | [] => Return args
  | sig_match :: rest =>
      args' ← decode_arg st args_ptr i sig_match args;
      decode_loop st args_ptr (S i) rest args'
  end.

Definition c_to_arguments (self : Message) (args_ptr : wl_arguments)
    (st : state) : result (list value) :=
  decode_loop st args_ptr 0 (finditer (signature self)) [].

(** ** [Message.arguments_to_c] *)

(** [arg.encode()]. *)
Definition py_encode (arg : value) : result (list Z) :=
  match arg with
  | VStr s => str_encode s
  | _ => Raise AttributeError
  end.

(** [arg._ptr]. *)
Definition py_ptr (arg : value) : result Z :=
  match arg with
  | VObj o => Return (Proxy._ptr o)
  | _ => Raise AttributeError
  end.

(** [len(arg)]. *)
Definition py_len (arg : value) : result nat :=
  match arg with
  | VStr s => Return (length s)
  | VBytes b => Return (length b)
  | _ => Raise TypeError
  end.

(** The bytes written by [ffi.buffer(new_data)[:] = arg]. *)
Definition py_buffer (arg : value) : result (list Z) :=
  match arg with
  | VBytes b => Return b
  | _ => Raise TypeError
  end.

Definition isinstance_int (arg : value) : bool :=
  match arg with VInt _ => true | _ => false end.

Definition is_None (arg : value) : bool :=
  match arg with VNone => true | _ => false end.

(** The variables of the loop of [arguments_to_c]: the iterator over
    the caller's arguments, the cells of [args_ptr] and [refs]. *)
Record locals := {
  arg_iter : list value;
  args_ptr : list Z;
  refs : list Z
}.

(** The body of the loop at index [i]. *)
Definition encode_arg (i : nat) (sig_match : groups) (l : locals) : M locals :=
  let '(null, sig) := sig_match in
  if sig =? ord "n" then
    cs ← liftR (set_member (args_ptr l) i (set_ptr NULL));
    mret {| arg_iter := arg_iter l; args_ptr := cs; refs := refs l |}
  else
    match arg_iter l with
    | [] => raise StopIteration
    | arg :: it =>
        if sig =? ord "i" then
          v ← liftR (to_int32 arg);
          cs ← liftR (set_member (args_ptr l) i (set_low32 v));
          mret {| arg_iter := it; args_ptr := cs; refs := refs l |}
        else if sig =? ord "u" then
          v ← liftR (to_uint32 arg);
          cs ← liftR (set_member (args_ptr l) i (set_low32 v));
          mret {| arg_iter := it; args_ptr := cs; refs := refs l |}
        else if sig =? ord "f" then
          f ← liftR (if isinstance_int arg then wl_fixed_from_int arg
                     else wl_fixed_from_double arg);
          v ← liftR (to_int32 (VInt f));
          cs ← liftR (set_member (args_ptr l) i (set_low32 v));
          mret {| arg_iter := it; args_ptr := cs; refs := refs l |}
        else if sig =? ord "h" then
          v ← liftR (to_int32 arg);
          cs ← liftR (set_member (args_ptr l) i (set_low32 v));
          mret {| arg_iter := it; args_ptr := cs; refs := refs l |}
        else if sig =? ord "s" then
          '(new_arg, refs') ←
            (if is_None arg then
               if py_not null then raise Exception
               else mret (NULL, refs l)
             else
               bs ← liftR (py_encode arg);
               p ← ffi_new (Z.of_nat (length bs) + 1) (BChars (bs ++ [0]));
               mret (p, refs l ++ [p]));
          cs ← liftR (set_member (args_ptr l) i (set_ptr new_arg));
          mret {| arg_iter := it; args_ptr := cs; refs := refs' |}
        else if sig =? ord "o" then
          '(new_arg, refs') ←
            (if is_None arg then
               if py_not null then raise Exception
               else mret (NULL, refs l)
             else
               p ← liftR (py_ptr arg);
               mret (p, refs l ++ [p]));
          cs ← liftR (set_member (args_ptr l) i (set_ptr new_arg));
          mret {| arg_iter := it; args_ptr := cs; refs := refs' |}
        else if sig =? ord "a" then
          new_arg ← ffi_new 24 (BArray 0 0 NULL);
          n ← liftR (py_len arg);
          new_data ← ffi_new_void_array n;
          store new_arg (BArray (Z.of_nat n) (Z.of_nat n) NULL);;
          bs ← liftR (py_buffer arg);
          store new_data (BChars bs);;
          mret {| arg_iter := it; args_ptr := args_ptr l;
                  refs := refs l ++ [new_arg; new_data] |}
        else
          mret {| arg_iter := it; args_ptr := args_ptr l; refs := refs l |}
    end.

Fixpoint encode_loop (i : nat) (matches : list groups) (l : locals) : M locals :=
  match matches with
  | [] => mret l
  | sig_match :: rest =>
      l' ← encode_arg i sig_match l;
      encode_loop (S i) rest l'
  end.

(** [arguments_to_c(self, *args)].  [weakkeydict] is written last, so
    a raised exception leaves the module state as it was; the
    allocations made before the raise are unreachable garbage. *)
Definition arguments_to_c (self : Message) (args : list value)
  : M wl_arguments :=
  let nargs := length (findall (signature self)) in
  a ← ffi_new_arguments nargs;
  l ← encode_loop 0 (finditer (signature self))
        {| arg_iter := args; args_ptr := cells a; refs := [] |};
  (match refs l with
   | [] => mret tt
   | _ => weakkeydict_set (addr a) (refs l)
   end);;
  mret {| addr := addr a; cells := args_ptr l |}.

(** ** Definitions used by the statements *)

(** The argument descriptor a match stands for: the nullable flag and
    the kind letter. *)
Definition descriptor (g : groups) : bool * Z := (negb (py_not g.1), g.2).

Definition is_kind (c : Z) : bool := elem c kind_letters.

Definition is_digit (c : Z) : bool := in_range (ord "0") (ord "9") c.

(** The descriptors of a signature as the specification words them: one
    per kind letter, from left to right, nullable when the character
    just before the letter is a question mark.  [prev] tells whether
    the character before the head of [s] is one. *)
Fixpoint parse_spec (prev : bool) (s : pystr) : list (bool * Z) :=
  match s with
  | [] => []
  | c :: t =>
      if is_kind c then (prev, c) :: parse_spec false t
      else parse_spec (c =? qmark) t
  end.

(** The number of caller values the loop of [arguments_to_c] takes from
    [arg_iter]: one per match that is not a new id. *)
Definition takes_arg (g : groups) : bool := negb (g.2 =? ord "n").

Definition consumed (matches : list groups) : nat :=
  length (filter (λ g, takes_arg g = true) matches).

(** The consumption count as the specification words it: none for a
    new id of a known interface, three for a new id of an unknown one,
    one for every other slot. *)
Fixpoint spec_consumed (matches : list groups)
    (types : list (option Interface.t)) : nat :=
  match matches with
  | [] => O
  | g :: rest =>
      let here :=
        if g.2 =? ord "n" then
          match head types with
          | Some (Some _) => 0%nat
          | _ => 3%nat
          end
        else 1%nat in
      (here + spec_consumed rest (tail types))%nat
  end.

(** A state whose allocator has not handed out the NULL address. *)
Definition state0 : state := {| next := 4096; mem := ∅; weakkeydict := ∅ |}.

(** A message with the given signature and type table, as [__init__]
    leaves it for a function named [f]. *)
Definition message (signature : string) (types : list (option Interface.t))
  : Message :=
  {| _func := {| __name__ := str "f" |}; name := str "f";
     signature := str signature; types := types; _ptr := 1024 |}.

Definition WlCore : Interface.t :=
  {| Interface.name := str "wl_core"; Interface._ptr := 512 |}.

Definition WlRequests : Interface.t :=
  {| Interface.name := str "wl_requests"; Interface._ptr := 768 |}.

(** C2 as the specification states it. *)
Definition arg_count_claim : Prop :=
  ∀ (m : Message) (args : list value) (st : state),
    length args ≠ spec_consumed (finditer (signature m)) (types m) →
    ∃ e, arguments_to_c m args st = Raise e.

(** C4 as the specification states it. *)
Definition signature_mismatch_claim : Prop :=
  ∀ (m : Message) (a : wl_arguments) (st : state),
    length (cells a) ≠ length (finditer (signature m)) →
    ∃ e, c_to_arguments m a st = Raise e.

(** The matches for which [c_to_arguments] appends a value. *)
Definition decodes (g : groups) : bool := elem g.2 (str "iufhs").

(** C6 as the specification states it, for a message with one object
    slot. *)
Definition type_mismatch_claim : Prop :=
  ∀ (m : Message) (o : Proxy.t) (t : Interface.t) (st : state),
    signature m = str "o" → types m = [Some t] → Proxy.interface o ≠ t →
    ∃ e, arguments_to_c m [VObj o] st = Raise e.

(** The state after a call of [arguments_to_c] that made no allocation
    but the argument array, of [nargs] cells, and kept [refs] alive. *)
Definition after_arguments (nargs : Z) (refs : option (list Z)) (st : state)
  : state :=
  {| next := next st + sizeof_wl_argument * nargs;
     mem := mem st;
     weakkeydict := match refs with
                    | Some r => <[next st := r]> (weakkeydict st)
                    | None => weakkeydict st
                    end |}.

(** A character of a Python string that [str.encode] accepts: a code
    point that is not a surrogate. *)
Definition scalar (c : Z) : Prop := 0 ≤ c < 0xD800 ∨ 0xE000 ≤ c < 0x110000.

(** The values that [arguments_to_c] followed by [c_to_arguments] gives
    back, per slot: an integer of the C type for [i], [u] and [h]; for
    [f] an integer of 24 bits or a float that is a multiple of 1/256
    within the 32 bits of [wl_fixed_t]; for [s] a text without
    surrogates and without the NUL character. *)
Inductive exact_value : groups → value → Prop :=
| exact_i null z :
    - 2 ^ 31 ≤ z < 2 ^ 31 → exact_value (null, ord "i") (VInt z)
| exact_u null z :
    0 ≤ z < 2 ^ 32 → exact_value (null, ord "u") (VInt z)
| exact_h null z :
    - 2 ^ 31 ≤ z < 2 ^ 31 → exact_value (null, ord "h") (VInt z)
| exact_f_int null z :
    - 2 ^ 23 ≤ z < 2 ^ 23 → exact_value (null, ord "f") (VInt z)
| exact_f_float null q k :
    - 2 ^ 31 ≤ k < 2 ^ 31 → (q == k # 256)%Q →
    exact_value (null, ord "f") (VFloat q)
| exact_s null s :
    Forall (λ c, scalar c ∧ 0 < c) s → exact_value (null, ord "s") (VStr s).

(** The type and nullability constraints of a slot, as the
    specification has them for C1. *)
Definition slot_value (g : groups) (v : value) : Prop :=
  match v with
  | VInt z =>
      (g.2 = ord "i" ∧ - 2 ^ 31 ≤ z < 2 ^ 31)
      ∨ (g.2 = ord "u" ∧ 0 ≤ z < 2 ^ 32)
      ∨ (g.2 = ord "h" ∧ - 2 ^ 31 ≤ z < 2 ^ 31)
      ∨ (g.2 = ord "f" ∧ - 2 ^ 23 ≤ z < 2 ^ 23)
  | VFloat q => g.2 = ord "f" ∧ (- (8388608 # 1) <= q < 8388608 # 1)%Q
  | VStr s => g.2 = ord "s" ∧ Forall scalar s
  | VObj _ => g.2 = ord "o"
  | VNone => (g.2 = ord "s" ∨ g.2 = ord "o") ∧ g.1 = [qmark]
  | VBytes _ => False
  end.

(** C1 as the specification states it. *)
Definition round_trip_claim : Prop :=
  ∀ (m : Message) (args : list value) (st : state) a st',
    0 < next st →
    Forall (λ g, g.2 ≠ ord "n" ∧ g.2 ≠ ord "a") (finditer (signature m)) →
    Forall2 slot_value (finditer (signature m)) args →
    arguments_to_c m args st = Return (a, st') →
    ∃ vs, c_to_arguments m a st' = Return vs ∧ py_list_eq vs args = true.

(** C8 as the specification states it, for a float. *)
Definition fixed_precision_claim : Prop :=
  ∀ (q : Q) (st : state) a st',
    arguments_to_c (message "f" [None]) [VFloat q] st = Return (a, st') →
    ∃ q', c_to_arguments (message "f" [None]) a st' = Return [VFloat q']
          ∧ (Qabs (q' - q) <= 1 # 256)%Q.

(** Values after the ones the loop takes make no difference to it. *)
Definition add_extra (extra : list value) (l : locals) : locals :=
  {| arg_iter := arg_iter l ++ extra; args_ptr := args_ptr l; refs := refs l |}.

Definition with_extra (extra : list value) (r : result (locals * state))
  : result (locals * state) :=
  match r with
  | Return (l, st) => Return (add_extra extra l, st)
  | Raise e => Raise e
  end.

(** ** Definitions used by the further properties *)

Definition int32 (z : Z) : bool := (- 2 ^ 31 <=? z) && (z <? 2 ^ 31).

Definition uint32 (z : Z) : bool := (0 <=? z) && (z <? 2 ^ 32).

Definition encodable (s : pystr) : bool :=
  match utf8_encode s with Some _ => true | None => false end.

(** The values that a slot takes without an exception: an integer of
    the C type for [i], [u] and [h]; an [int] that fits a C [int] or
    any float for [f]; a text that UTF-8 can encode for [s] and an
    object for [o], or [None] when the slot has the question mark;
    nothing for [a], whose branch raises on every value. *)
Definition accepts (g : groups) (v : value) : bool :=
  if g.2 =? ord "i" then match v with VInt z => int32 z | _ => false end
  else if g.2 =? ord "u" then match v with VInt z => uint32 z | _ => false end
  else if g.2 =? ord "f" then
    match v with VInt z => int32 z | VFloat _ => true | _ => false end
  else if g.2 =? ord "h" then match v with VInt z => int32 z | _ => false end
  else if g.2 =? ord "s" then
    match v with
    | VNone => negb (py_not g.1)
    | VStr s => encodable s
    | _ => false
    end
  else if g.2 =? ord "o" then
    match v with VNone => negb (py_not g.1) | VObj _ => true | _ => false end
  else if g.2 =? ord "a" then false
  else true.

(** The value sequences that a signature takes: no value for a new id,
    an accepted value for every other slot, in order; what follows the
    last value taken is not looked at. *)
Fixpoint accepted (matches : list groups) (args : list value) : bool :=
  match matches with
  | [] => true
  | g :: rest =>
      if g.2 =? ord "n" then accepted rest args
      else match args with
           | [] => false
           | v :: args' => accepts g v && accepted rest args'
           end
  end.

(** Exact values for the slots of a signature that may hold new ids:
    no value stands for a new id. *)
Inductive exact_args : list groups → list value → Prop :=
| exact_args_nil : exact_args [] []
| exact_args_newid null ms args :
    exact_args ms args → exact_args ((null, ord "n") :: ms) args
| exact_args_value g v ms args :
    exact_value g v → exact_args ms args → exact_args (g :: ms) (v :: args).

(** The numbers that a 32-bit member can give: an integer of 32 bits,
    signed or unsigned, or a multiple of 1/256 with a 32-bit signed
    numerator. *)
Definition wire_value (v : value) : Prop :=
  match v with
  | VInt z => - 2 ^ 31 ≤ z < 2 ^ 32
  | VFloat q => ∃ f, - 2 ^ 31 ≤ f < 2 ^ 31 ∧ q = f # 256
  | _ => False
  end.

(** The events declared in [src/test/scanner_files/wl_events.py]: the
    name of the decorated function, the signature and the type list of
    each [@WlEvents.event], in the order of the file. *)
Definition wl_events : list (string * string * list (option Interface.t)) :=
  [("send_event", "niuh", [Some WlRequests; None; None; None]);
   ("no_args", "", []);
   ("create_id", "n", [Some WlCore]);
   ("create_id2", "n", [Some WlCore]);
   ("allow_null_event", "?s", [None]);
   ("make_import", "n?o", [Some WlRequests; Some WlCore]);
   ("versioned", "2", [])]%string.

(** * Theorems *)

Lemma finditer_unfold (s : pystr) :
  finditer s =
  match s with
  | [] => []
  | _ :: t =>
      match re_arg_match s with
      | Some (g, rest) => g :: finditer rest
      | None => finditer t
      end
  end.
Proof.
  destruct s as [|c [|d t']]; unfold re_arg_match; cbn [finditer]; [done| |].
  - by destruct (elem c kind_letters).
  - destruct ((c =? qmark) && elem d kind_letters); [done|].
    by destruct (elem c kind_letters).
Qed.

Example finditer_niuh :
  finditer (str "niuh") =
  [([], ord "n"); ([], ord "i"); ([], ord "u"); ([], ord "h")].
Proof. reflexivity. Qed.

Example finditer_n_opt_o :
  finditer (str "n?o") = [([], ord "n"); ([qmark], ord "o")].
Proof. reflexivity. Qed.

Example utf8_euro : utf8_encode [0x20AC] = Some [0xE2; 0x82; 0xAC]
  ∧ utf8_decode [0xE2; 0x82; 0xAC] = Some [0x20AC].
Proof. split; reflexivity. Qed.

(** ** Signature scanning *)

Lemma digit_not_kind c : is_digit c = true → is_kind c = false.
Proof.
  unfold is_digit, in_range. intros [H1 H2]%andb_prop.
  apply Z.leb_le in H1, H2. change (ord "0") with 48 in H1.
  change (ord "9") with 57 in H2.
  unfold is_kind, kind_letters, elem. cbv -[Z.eqb].
  repeat match goal with
         | |- context [c =? ?k] => rewrite (proj2 (Z.eqb_neq c k)) by lia
         end.
  done.
Qed.

Lemma parse_spec_not_kind b c t :
  is_kind c = false → parse_spec b (c :: t) = parse_spec false (c :: t).
Proof. intros H. cbn [parse_spec]. by rewrite H. Qed.

(** One scan step, by cases on the head of the string. *)
Lemma finditer_cons c t :
  finditer (c :: t) =
  match t with
  | d :: t' =>
      if (c =? qmark) && is_kind d then ([qmark], d) :: finditer t'
      else if is_kind c then ([], c) :: finditer t else finditer t
  | [] => if is_kind c then [([], c)] else []
  end.
Proof. destruct t; reflexivity. Qed.

Lemma finditer_parse_spec_aux n :
  ∀ s, (length s ≤ n)%nat → map descriptor (finditer s) = parse_spec false s.
Proof.
  induction n as [|n IH]; intros [|c t] Hlen; try done; [simpl in Hlen; lia|].
  simpl in Hlen. rewrite finditer_cons.
  destruct t as [|d t'].
  - cbn [parse_spec]. by destruct (is_kind c).
  - simpl in Hlen. destruct (Z.eqb_spec c qmark) as [->|Hc]; cbn [andb].
    + destruct (is_kind d) eqn:Hd.
      * cbn [map parse_spec]. change (is_kind qmark) with false.
        change (qmark =? qmark) with true. cbv iota. rewrite Hd.
        rewrite IH by lia. done.
      * change (is_kind qmark) with false. cbv iota.
        rewrite IH by (simpl; lia).
        change (parse_spec false (qmark :: d :: t'))
          with (parse_spec true (d :: t')).
        symmetry. by apply parse_spec_not_kind.
    + destruct (is_kind c) eqn:Hk.
      * cbn [map parse_spec]. rewrite Hk, IH by (simpl; lia). done.
      * rewrite IH by (simpl; lia). change (parse_spec false (c :: d :: t'))
          with (if is_kind c then (false, c) :: parse_spec false (d :: t')
                else parse_spec (c =? qmark) (d :: t')).
        rewrite Hk. by destruct (Z.eqb_spec c qmark).
Qed.

Lemma parse_spec_kinds b s : map snd (parse_spec b s) = filter (λ c, is_kind c = true) s.
Proof.
  revert b. induction s as [|c t IH]; intros b; [done|].
  cbn [parse_spec]. rewrite filter_cons.
  destruct (is_kind c) eqn:Hk.
  - rewrite decide_True by done. cbn. by rewrite IH.
  - rewrite decide_False by congruence. apply IH.
Qed.

(** C9: scanning a signature yields one descriptor (nullable flag, kind
    letter) per kind letter of the string, from left to right, the
    flag set exactly when the letter comes right after a question
    mark; a digit is skipped and yields no descriptor, and the
    signature ["2"] has no argument. *)
Theorem finditer_descriptors :
  (∀ s, map descriptor (finditer s) = parse_spec false s) ∧
  (∀ s, map snd (finditer s) = filter (λ c, is_kind c = true) s) ∧
  (∀ d s, is_digit d = true → finditer (d :: s) = finditer s) ∧
  finditer (str "2") = [].
Proof.
  assert (H1 : ∀ s, map descriptor (finditer s) = parse_spec false s)
    by (intros s; by apply (finditer_parse_spec_aux (length s))).
  split; [done|]. split; [|split; [|reflexivity]].
  - intros s. rewrite <- parse_spec_kinds with (b := false), <- H1.
    rewrite <- list_fmap_compose. apply list_fmap_ext. by intros ? [].
  - intros d s Hd. rewrite finditer_cons.
    assert ((d =? qmark) = false) as ->.
    { unfold is_digit, in_range in Hd. apply andb_prop in Hd as [_ Hd].
      apply Z.leb_le in Hd. change (ord "9") with 57 in Hd.
      apply Z.eqb_neq. change qmark with 63. lia. }
    rewrite (digit_not_kind d Hd). by destruct s.
Qed.

(** ** [str.strip] *)

Lemma lstrip_split chars (s : list Z) :
  ∃ pre, s = pre ++ lstrip chars s ∧ Forall (λ c, elem c chars = true) pre.
Proof.
  induction s as [|c t (pre & Ht & Hpre)]; [by exists []|].
  cbn [lstrip]. destruct (elem c chars) eqn:Hc.
  - exists (c :: pre). split; [by rewrite <- app_comm_cons, <- Ht|].
    by constructor.
  - by exists [].
Qed.

Lemma lstrip_head chars (s : list Z) c t :
  lstrip chars s = c :: t → elem c chars = false.
Proof.
  induction s as [|d s IH]; [done|]. cbn [lstrip].
  destruct (elem d chars) eqn:Hd; [done|]. by intros [= <- _].
Qed.

Lemma lstrip_keeps_last chars (r : list Z) h :
  elem h chars = false → ∃ r', lstrip chars (r ++ [h]) = r' ++ [h].
Proof.
  intros Hh. induction r as [|c r IH]; cbn [lstrip app].
  - rewrite Hh. by exists [].
  - destruct (elem c chars); [done|]. by exists (c :: r).
Qed.

Lemma rstrip_split chars (s : list Z) :
  ∃ post, s = rstrip chars s ++ post ∧ Forall (λ c, elem c chars = true) post.
Proof.
  unfold rstrip. destruct (lstrip_split chars (rev s)) as (pre & Hs & Hpre).
  exists (rev pre). split.
  - rewrite <- rev_app_distr, <- Hs. by rewrite rev_involutive.
  - apply Forall_forall. intros c Hc%list_elem_of_In%in_rev.
    rewrite Forall_forall in Hpre. by apply Hpre, list_elem_of_In.
Qed.

Lemma rstrip_last chars (s : list Z) t c :
  rstrip chars s = t ++ [c] → elem c chars = false.
Proof.
  unfold rstrip. intros H. apply (f_equal (@rev Z)) in H.
  rewrite rev_involutive, rev_app_distr in H. cbn in H.
  by apply lstrip_head in H.
Qed.

Lemma rstrip_keeps_head chars (s : list Z) h t :
  elem h chars = false → ∃ t', rstrip chars (h :: t) = h :: t'.
Proof.
  intros Hh. unfold rstrip. cbn [rev].
  destruct (lstrip_keeps_last chars (rev t) h Hh) as (r' & ->).
  rewrite rev_app_distr. by exists (rev r').
Qed.

(** The characterisation of [s.strip(chars)]: what is cut off on either
    side consists of characters of [chars], and what is left neither
    starts nor ends with one. *)
Lemma strip_spec chars (s : list Z) :
  (∃ pre post, s = pre ++ strip chars s ++ post
     ∧ Forall (λ c, elem c chars = true) pre
     ∧ Forall (λ c, elem c chars = true) post)
  ∧ (∀ c t, strip chars s = c :: t → elem c chars = false)
  ∧ (∀ c t, strip chars s = t ++ [c] → elem c chars = false).
Proof.
  unfold strip. split; [|split].
  - destruct (lstrip_split chars s) as (pre & Hs & Hpre).
    destruct (rstrip_split chars (lstrip chars s)) as (post & Hl & Hpost).
    exists pre, post. split; [|done]. by rewrite <- Hl.
  - intros c t H. destruct (lstrip chars s) as [|h l] eqn:Hl; [done|].
    pose proof (lstrip_head _ _ _ _ Hl) as Hh.
    destruct (rstrip_keeps_head chars s h l Hh) as (t' & Ht').
    rewrite Ht' in H. by injection H as <- _.
  - intros c t H. by apply rstrip_last in H.
Qed.

Lemma elem_underscore c : elem c (str "_") = true ↔ c = ord "_".
Proof.
  unfold elem. cbn. rewrite orb_false_r. rewrite Z.eqb_eq. done.
Qed.

(** ** The two monads *)

Lemma bind_Return {A B} (m : M A) (f : A → M B) st r :
  (m ≫= f) st = Return r ↔ ∃ a st1, m st = Return (a, st1) ∧ f a st1 = Return r.
Proof.
  unfold mbind, M_bind. destruct (m st) as [[a st1]|e]; split.
  - intros H. by exists a, st1.
  - by intros (? & ? & [= <- <-] & ?).
  - done.
  - by intros (? & ? & [=] & _).
Qed.

Lemma result_bind_Return {A B} (r : result A) (f : A → result B) b :
  r ≫= f = Return b ↔ ∃ a, r = Return a ∧ f a = Return b.
Proof.
  unfold mbind, result_bind. destruct r as [a|e]; split.
  - intros H. by exists a.
  - by intros (? & [= <-] & ?).
  - done.
  - by intros (? & [=] & _).
Qed.


Lemma mret_Return {A} (a b : A) (st st' : state) :
  mret (M := M) a st = Return (b, st') ↔ a = b ∧ st = st'.
Proof. unfold mret, M_ret. split; [by intros [= <- <-]|by intros [-> ->]]. Qed.

(** Inversion of a successful run, one bind at a time. *)
Ltac inv_run H :=
  repeat match type of H with
  | (_ ≫= _) _ = Return _ =>
      let a := fresh "a" in let st := fresh "st" in let H1 := fresh "H" in
      apply bind_Return in H as (a & st & H1 & H)
  end.

(** ** [Message.__init__] *)

Lemma fill_types_ok ts : ∀ i (arr : list Z),
  (i + length ts ≤ length arr)%nat → ∃ arr', fill_types i ts arr = Return arr'.
Proof.
  induction ts as [|t ts IH]; intros i arr Hlen; [by eexists|].
  cbn [fill_types]. simpl in Hlen. unfold set_member.
  destruct (lookup_lt_is_Some_2 arr i) as [c ->]; [lia|].
  cbn. apply IH. rewrite length_insert. lia.
Qed.

(** C10: the public name of a constructed message is [func.__name__]
    without its leading and trailing underscores (what is cut off on
    either side is underscores only, and what is left neither starts nor
    ends with one; ["_func_"] gives ["func"]); the signature string and
    the type list are stored as given.  The constructor returns whenever
    the name and the signature can be encoded. *)
Theorem Message_init_name func sig tys st :
  (∀ m st', Message_init func sig tys st = Return (m, st') →
     name m = strip (str "_") (__name__ func)
     ∧ (∃ pre post, __name__ func = pre ++ name m ++ post
          ∧ Forall (λ c, c = ord "_") pre ∧ Forall (λ c, c = ord "_") post)
     ∧ (∀ t, name m ≠ ord "_" :: t)
     ∧ (∀ t, name m ≠ t ++ [ord "_"])
     ∧ signature m = sig ∧ types m = tys)
  ∧ (is_Some (utf8_encode (strip (str "_") (__name__ func))) →
     is_Some (utf8_encode sig) →
     ∃ m st', Message_init func sig tys st = Return (m, st'))
  ∧ strip (str "_") (str "_func_") = str "func".
Proof.
  split; [|split; [|reflexivity]].
  - intros m st' H. unfold Message_init in H. inv_run H.
    apply mret_Return in H as [<- _]. cbn [name signature types].
    destruct (strip_spec (str "_") (__name__ func))
      as ((pre & post & Hs & Hpre & Hpost) & Hhead & Hlast).
    split; [done|]. split; [|split; [|split; [|done]]].
    + exists pre, post. split; [done|].
      split; eapply Forall_impl; eauto; intros c; apply elem_underscore.
    + intros t Ht. apply Hhead in Ht. by vm_compute in Ht.
    + intros t Ht. apply Hlast in Ht. by vm_compute in Ht.
  - intros [nb Hn] [sb Hs]. unfold Message_init.
    destruct (fill_types_ok tys 0 (replicate (length tys) NULL)) as [arr Harr].
    { by rewrite length_replicate. }
    unfold str_encode. rewrite Hn, Hs, Harr.
    unfold mbind, M_bind, liftR, ffi_new, store, weakkeydict_set, mret, M_ret.
    cbn. eauto.
Qed.

Lemma Message_init_name_witness :
  ∃ m st', Message_init {| __name__ := str "_func_" |} (str "niuh")
             [None; None; None; None] state0 = Return (m, st')
           ∧ name m = str "func"
           ∧ signature m = str "niuh".
Proof.
  pose proof (Message_init_name {| __name__ := str "_func_" |} (str "niuh")
                [None; None; None; None] state0) as (Hname & Hret & Hfunc).
  destruct Hret as (m & st' & Hm); [by vm_compute; eexists ..|].
  exists m, st'. split; [done|].
  destruct (Hname m st' Hm) as (-> & _ & _ & _ & -> & _).
  split; [exact Hfunc|done].
Defined.

(** ** The loop of [arguments_to_c] *)

Ltac unfold_run :=
  unfold mbind, M_bind, liftR, mret, M_ret, raise, ffi_new,
    ffi_new_void_array, store, weakkeydict_set, set_member in *.


(** What one turn of the loop leaves alone: the other cells, the
    allocations made before it, the module dictionary; and what it takes
    from the iterator. *)
Lemma encode_arg_frame i g l st l' st' :
  encode_arg i g l st = Return (l', st') →
  length (args_ptr l') = length (args_ptr l)
  ∧ (∀ j, j ≠ i → args_ptr l' !! j = args_ptr l !! j)
  ∧ (i < length (args_ptr l) ∨ args_ptr l' = args_ptr l)%nat
  ∧ next st ≤ next st'
  ∧ (∀ p, p < next st → mem st' !! p = mem st !! p)
  ∧ weakkeydict st' = weakkeydict st
  ∧ arg_iter l' = drop (if takes_arg g then 1 else 0)%nat (arg_iter l)
  ∧ (takes_arg g = true → arg_iter l ≠ []).
Proof.
  destruct g as [null sig]. unfold encode_arg, takes_arg. cbn [snd].
  intros H. unfold_run.
  repeat case_match; simplify_eq; cbn [args_ptr arg_iter next mem weakkeydict negb drop];
    (split; [try done; by rewrite length_insert|]);
    (split; [try done; by intros j Hj; rewrite list_lookup_insert_ne|]);
    (split; [try (by right); left; by eapply lookup_lt_Some|]);
    (split; [lia|]);
    (split; [intros p Hp; rewrite ?lookup_insert_ne by lia; done|]);
    done.
Qed.

Lemma consumed_cons g ms :
  consumed (g :: ms) = ((if takes_arg g then 1 else 0) + consumed ms)%nat.
Proof.
  unfold consumed. rewrite filter_cons.
  destruct (takes_arg g); [by rewrite decide_True|by rewrite decide_False].
Qed.

Lemma encode_loop_frame ms : ∀ i l st l' st',
  encode_loop i ms l st = Return (l', st') →
  length (args_ptr l') = length (args_ptr l)
  ∧ (∀ j, (j < i)%nat → args_ptr l' !! j = args_ptr l !! j)
  ∧ next st ≤ next st'
  ∧ (∀ p, p < next st → mem st' !! p = mem st !! p)
  ∧ weakkeydict st' = weakkeydict st
  ∧ (consumed ms ≤ length (arg_iter l))%nat
  ∧ arg_iter l' = drop (consumed ms) (arg_iter l).
Proof.
  induction ms as [|g ms IH]; intros i l st l' st' H; cbn [encode_loop] in H.
  - apply mret_Return in H as [<- <-]. change (consumed []) with 0%nat.
    rewrite drop_0. repeat split; try done; lia.
  - apply bind_Return in H as (l1 & st1 & H1 & H).
    apply encode_arg_frame in H1
      as (Hlen1 & Hcells1 & _ & Hnext1 & Hmem1 & Hwk1 & Hit1 & Hne1).
    apply IH in H as (Hlen & Hcells & Hnext & Hmem & Hwk & Hcons & Hit).
    rewrite consumed_cons.
    split; [congruence|]. split; [|split; [lia|split; [|split; [congruence|]]]].
    + intros j Hj. rewrite Hcells, Hcells1 by lia. done.
    + intros p Hp. rewrite Hmem, Hmem1 by lia. done.
    + rewrite Hit, Hit1. rewrite Hit1 in Hcons. rewrite length_drop in Hcons.
      rewrite drop_drop.
      destruct (takes_arg g).
      * destruct (arg_iter l); [by destruct Hne1|]. simpl in *.
        split; [lia|done].
      * simpl in *. split; [lia|]. by rewrite ?Nat.add_0_r.
Qed.

Lemma encode_arg_extra extra i g l st :
  (takes_arg g = true → arg_iter l ≠ []) →
  encode_arg i g (add_extra extra l) st = with_extra extra (encode_arg i g l st).
Proof.
  destruct g as [null sig]. unfold encode_arg, takes_arg, add_extra, with_extra.
  cbn [snd arg_iter args_ptr refs]. intros Hne.
  destruct (sig =? ord "n") eqn:Hn.
  - unfold_run. by repeat case_match.
  - destruct (arg_iter l) as [|arg it]; [by destruct Hne|].
    cbn [app]. unfold_run.
    repeat case_match; simplify_eq; done.
Qed.

Lemma encode_loop_extra extra ms : ∀ i l st,
  (consumed ms ≤ length (arg_iter l))%nat →
  encode_loop i ms (add_extra extra l) st
  = with_extra extra (encode_loop i ms l st).
Proof.
  induction ms as [|g ms IH]; intros i l st Hlen; [done|].
  cbn [encode_loop]. rewrite consumed_cons in Hlen.
  unfold mbind, M_bind. rewrite encode_arg_extra.
  - destruct (encode_arg i g l st) as [[l1 st1]|e] eqn:H1; [|done].
    cbn [with_extra]. apply IH.
    apply encode_arg_frame in H1 as (_ & _ & _ & _ & _ & _ & Hit & _).
    rewrite Hit, length_drop. lia.
  - intros Ht Hnil. rewrite Ht, Hnil in Hlen. simpl in Hlen. lia.
Qed.

(** When the values passed are the first ones of a sequence that the
    loop accepts, and some slot is left without a value, the loop
    stops with StopIteration. *)
Lemma encode_loop_prefix extra ms : ∀ i l st l' st',
  encode_loop i ms (add_extra extra l) st = Return (l', st') →
  (length (arg_iter l) < consumed ms)%nat →
  encode_loop i ms l st = Raise StopIteration.
Proof.
  induction ms as [|g ms IH]; intros i l st l' st' H Hlen.
  - cbn in Hlen. lia.
  - cbn [encode_loop] in H |- *. rewrite consumed_cons in Hlen.
    apply bind_Return in H as (l1 & st1 & H1 & H).
    unfold mbind, M_bind.
    destruct (takes_arg g) eqn:Hg; [destruct (arg_iter l) as [|v it] eqn:Hit|].
    + destruct g as [null sig]. unfold takes_arg in Hg. cbn [snd] in Hg.
      apply negb_true_iff in Hg. unfold encode_arg. by rewrite Hg, Hit.
    + rewrite encode_arg_extra in H1 by (rewrite Hit; done).
      destruct (encode_arg i g l st) as [[l2 st2]|e] eqn:H2; [|done].
      injection H1 as <- <-.
      apply encode_arg_frame in H2 as Hf.
      destruct Hf as (_ & _ & _ & _ & _ & _ & Hit2 & _).
      rewrite Hg, Hit in Hit2. cbn [drop] in Hit2. rewrite drop_0 in Hit2.
      eapply IH; [done|]. rewrite Hit2. simpl in Hlen. lia.
    + rewrite encode_arg_extra in H1 by (rewrite Hg; done).
      destruct (encode_arg i g l st) as [[l2 st2]|e] eqn:H2; [|done].
      injection H1 as <- <-.
      apply encode_arg_frame in H2 as Hf.
      destruct Hf as (_ & _ & _ & _ & _ & _ & Hit2 & _).
      rewrite Hg, drop_0 in Hit2.
      eapply IH; [done|]. rewrite Hit2. simpl in Hlen. lia.
Qed.

(** When the caller passed nothing and some slot takes a value, the
    loop stops at the first such slot. *)
Lemma encode_loop_exhausted ms : ∀ i l st,
  arg_iter l = [] → (i + length ms ≤ length (args_ptr l))%nat →
  (0 < consumed ms)%nat →
  encode_loop i ms l st = Raise StopIteration.
Proof.
  induction ms as [|[null sig] ms IH]; intros i l st Hit Hlen Hc.
  - cbn in Hc. lia.
  - cbn [encode_loop]. rewrite consumed_cons in Hc. unfold takes_arg in Hc.
    cbn [snd] in Hc. simpl in Hlen.
    unfold mbind, M_bind, encode_arg.
    destruct (sig =? ord "n") eqn:Hn.
    + destruct (lookup_lt_is_Some_2 (args_ptr l) i) as [c Hi]; [lia|].
      unfold_run. rewrite Hi. apply IH; cbn [arg_iter args_ptr]; [done| |].
      * rewrite length_insert. lia.
      * simpl in Hc. lia.
    + by rewrite Hit.
Qed.

(** C2, as the code has it: the loop takes no value for a new id,
    whatever its type-table entry, and one value for every other slot,
    in signature order; with fewer values than that [arguments_to_c]
    raises (StopIteration when nothing was passed, and whenever the
    values passed are the first ones of an accepted sequence), values
    beyond the count are ignored, and the type table is not
    consulted. *)
Theorem arguments_to_c_consumption :
  (∀ i ms l st l' st', encode_loop i ms l st = Return (l', st') →
     (consumed ms ≤ length (arg_iter l))%nat
     ∧ arg_iter l' = drop (consumed ms) (arg_iter l))
  ∧ (∀ m args st, (length args < consumed (finditer (signature m)))%nat →
     ∃ e, arguments_to_c m args st = Raise e)
  ∧ (∀ m st, (0 < consumed (finditer (signature m)))%nat →
     arguments_to_c m [] st = Raise StopIteration)
  ∧ (∀ m args extra st a st',
     arguments_to_c m (args ++ extra) st = Return (a, st') →
     (length args < consumed (finditer (signature m)))%nat →
     arguments_to_c m args st = Raise StopIteration)
  ∧ (∀ m args extra st,
     (consumed (finditer (signature m)) ≤ length args)%nat →
     arguments_to_c m (args ++ extra) st = arguments_to_c m args st)
  ∧ (∀ m m', signature m = signature m' →
     arguments_to_c m = arguments_to_c m').
Proof.
  split; [|split; [|split; [|split; [|split]]]].
  - intros i ms l st l' st' H.
    by apply encode_loop_frame in H as (_ & _ & _ & _ & _ & ? & ?).
  - intros m args st Hlt.
    destruct (arguments_to_c m args st) as [[a st']|e] eqn:H; [|by eexists].
    unfold arguments_to_c in H. inv_run H.
    apply encode_loop_frame in H1 as (_ & _ & _ & _ & _ & Hc & _).
    cbn [arg_iter] in Hc. lia.
  - intros m st Hc. unfold arguments_to_c, findall.
    unfold mbind at 1, M_bind, ffi_new_arguments. cbn [cells addr].
    unfold mbind at 1, M_bind. rewrite encode_loop_exhausted; try done.
    cbn [args_ptr]. rewrite length_replicate. lia.
  - intros m args extra st a st' H Hlen. unfold arguments_to_c in H |- *.
    apply bind_Return in H as (a0 & st0 & H0 & H).
    apply bind_Return in H as (l1 & st1 & H1 & _).
    injection H0 as <- <-. cbn [cells addr] in H1.
    unfold mbind at 1, M_bind, ffi_new_arguments. cbn [cells addr].
    unfold mbind at 1, M_bind.
    by rewrite (encode_loop_prefix extra _ 0
                  {| arg_iter := args;
                     args_ptr := replicate (length (findall (signature m))) 0;
                     refs := [] |} _ l1 st1 H1 Hlen).
  - intros m args extra st Hc. unfold arguments_to_c.
    unfold mbind at 1 4, M_bind, ffi_new_arguments. cbn [cells addr].
    unfold mbind at 1 3, M_bind.
    pose proof (encode_loop_extra extra (finditer (signature m)) 0
      {| arg_iter := args; args_ptr := replicate (length (findall (signature m))) 0;
         refs := [] |}) as He.
    unfold add_extra in He. cbn [arg_iter args_ptr refs] in He.
    rewrite He by done. unfold with_extra.
    by destruct (encode_loop _ _ _ _) as [[l1 st1]|e].
  - intros m m' Hs. unfold arguments_to_c. by rewrite Hs.
Qed.

Lemma arguments_to_c_consumption_witness :
  (∃ e, arguments_to_c (message "ii" [None; None]) [VInt 1] state0 = Raise e)
  ∧ arguments_to_c (message "niuh" [Some WlRequests; None; None; None]) []
      state0 = Raise StopIteration
  ∧ arguments_to_c (message "ii" [None; None]) [VInt 1] state0
    = Raise StopIteration
  ∧ arguments_to_c (message "i" [None]) ([VInt 1] ++ [VInt 2]) state0
    = arguments_to_c (message "i" [None]) [VInt 1] state0
  ∧ arguments_to_c (message "n" [None]) = arguments_to_c (message "n" [Some WlCore]).
Proof.
  pose proof arguments_to_c_consumption
    as (_ & Hfew & Hnone & Hstop & Hmany & Hty).
  split; [|split; [|split; [|split]]].
  - apply Hfew. vm_compute. lia.
  - apply Hnone. vm_compute. lia.
  - eapply (Hstop (message "ii" [None; None]) [VInt 1] [VInt 2] state0).
    + reflexivity.
    + vm_compute. lia.
  - apply Hmany. vm_compute. lia.
  - by apply Hty.
Defined.

(** C2 as stated fails: a new id of an unknown interface takes no value
    either (the claim has three), and a surplus value raises nothing. *)
Lemma arg_count_counterexample :
  spec_consumed (finditer (str "n")) [None] = 3%nat
  ∧ arguments_to_c (message "n" [None]) [] state0
    = Return ({| addr := 4096; cells := [NULL] |},
              {| next := 4104; mem := ∅; weakkeydict := ∅ |})
  ∧ spec_consumed (finditer (str "i")) [None] = 1%nat
  ∧ arguments_to_c (message "i" [None]) [VInt 1; VInt 2] state0
    = Return ({| addr := 4096; cells := [1] |},
              {| next := 4104; mem := ∅; weakkeydict := ∅ |})
  ∧ ¬ arg_count_claim.
Proof.
  repeat split; try reflexivity. intros H.
  destruct (H (message "n" [None]) [] state0) as [e He]; [by vm_compute|].
  by vm_compute in He.
Qed.

(** ** The loop of [c_to_arguments] *)

Lemma decode_arg_in_range st a i g acc acc' :
  decode_arg st a i g acc = Return acc' → (i < length (cells a))%nat.
Proof.
  unfold decode_arg. destruct (cells a !! i) eqn:Hi; [|done].
  intros _. by eapply lookup_lt_Some.
Qed.

Lemma decode_loop_short st a ms : ∀ i acc,
  (i ≤ length (cells a))%nat → (length (cells a) < i + length ms)%nat →
  ∃ e, decode_loop st a i ms acc = Raise e.
Proof.
  induction ms as [|g ms IH]; intros i acc Hi Hlen; [simpl in Hlen; lia|].
  cbn [decode_loop]. simpl in Hlen.
  destruct (decode_arg st a i g acc) as [acc'|e] eqn:Hd; [|by exists e].
  apply decode_arg_in_range in Hd. cbn. apply IH; lia.
Qed.

Lemma decode_loop_extra st p cs extra ms : ∀ i acc,
  (i + length ms ≤ length cs)%nat →
  decode_loop st {| addr := p; cells := cs ++ extra |} i ms acc
  = decode_loop st {| addr := p; cells := cs |} i ms acc.
Proof.
  induction ms as [|g ms IH]; intros i acc Hlen; [done|].
  cbn [decode_loop]. simpl in Hlen.
  assert (decode_arg st {| addr := p; cells := cs ++ extra |} i g acc
          = decode_arg st {| addr := p; cells := cs |} i g acc) as ->.
  { unfold decode_arg. cbn [cells addr]. by rewrite lookup_app_l by lia. }
  destruct (decode_arg _ _ i g acc); [|done]. cbn. apply IH. lia.
Qed.

(** Tests between letters of the signature alphabet. *)
Ltac eval_letters :=
  repeat match goal with
  | |- context [ord ?a =? ord ?b] =>
      let v := eval vm_compute in (ord a =? ord b) in
      change (ord a =? ord b) with v
  end; cbv iota.

(** Case analysis on a kind letter, in the order of the tests of the
    two loops; the last case is a character outside the alphabet. *)
Ltac case_letter sig c := destruct (Z.eqb_spec sig (ord c)) as [->|?].

Ltac case_sig sig :=
  case_letter sig "n"%char; [|case_letter sig "i"%char;
    [|case_letter sig "u"%char; [|case_letter sig "f"%char;
      [|case_letter sig "h"%char; [|case_letter sig "s"%char;
        [|case_letter sig "o"%char; [|case_letter sig "a"%char]]]]]]];
  eval_letters.

Lemma decode_arg_length st a i g acc acc' :
  decode_arg st a i g acc = Return acc' →
  length acc' = (length acc + if decodes g then 1 else 0)%nat.
Proof.
  destruct g as [null sig]. unfold decode_arg, decodes, elem.
  cbn [snd str list_ascii_of_string map existsb].
  destruct (cells a !! i) as [c|]; [|done].
  case_sig sig; cbn [orb];
    try (intros [= <-]; rewrite ?length_app; cbn [length]; lia).
  destruct (_ =? NULL).
  - destruct (py_not null); [done|]. intros [= <-]. rewrite length_app. cbn. lia.
  - intros H. apply result_bind_Return in H as (bs & _ & H).
    apply result_bind_Return in H as (s & _ & [= <-]).
    rewrite length_app. cbn. lia.
Qed.

Lemma decode_loop_length st a ms : ∀ i acc vs,
  decode_loop st a i ms acc = Return vs →
  length vs = (length acc + length (filter (λ g, decodes g = true) ms))%nat.
Proof.
  induction ms as [|g ms IH]; intros i acc vs H; cbn [decode_loop] in H.
  - injection H as <-. cbn. lia.
  - apply result_bind_Return in H as (acc' & Hd & H).
    apply IH in H. apply decode_arg_length in Hd.
    rewrite filter_cons. destruct (decodes g).
    + rewrite decide_True by done. cbn [length]. lia.
    + rewrite decide_False by done. lia.
Qed.

Lemma decode_loop_app st a ms1 ms2 : ∀ i acc,
  decode_loop st a i (ms1 ++ ms2) acc
  = decode_loop st a i ms1 acc
    ≫= λ acc', decode_loop st a (i + length ms1) ms2 acc'.
Proof.
  induction ms1 as [|g ms1 IH]; intros i acc.
  - cbn. by rewrite Nat.add_0_r.
  - cbn [app decode_loop length].
    destruct (decode_arg st a i g acc) as [acc'|e]; [|done].
    cbn [mbind result_bind]. rewrite IH.
    by replace (S i + length ms1)%nat with (i + S (length ms1))%nat by lia.
Qed.

(** With fewer cells than arguments the loop runs over the cells that
    are there and then fails on the index of the first missing one. *)
Lemma decode_loop_missing st a ms :
  (length (cells a) < length ms)%nat →
  decode_loop st a 0 ms []
  = match decode_loop st a 0 (take (length (cells a)) ms) [] with
    | Return _ => Raise IndexError
    | Raise e => Raise e
    end.
Proof.
  intros Hlen. rewrite <- (take_drop (length (cells a)) ms) at 1.
  rewrite decode_loop_app.
  destruct (decode_loop st a 0 (take (length (cells a)) ms) [])
    as [acc|e]; [|done].
  cbn [mbind result_bind]. rewrite length_take, Nat.min_l by lia.
  destruct (drop (length (cells a)) ms) as [|g rest] eqn:Hd.
  { apply (f_equal length) in Hd. rewrite length_drop in Hd. simpl in Hd. lia. }
  cbn [decode_loop]. unfold decode_arg.
  by rewrite (lookup_ge_None_2 (cells a)) by done.
Qed.

Lemma decode_loop_no_string st a ms : ∀ i acc,
  Forall (λ g : groups, g.2 ≠ ord "s") ms →
  (i + length ms ≤ length (cells a))%nat →
  ∃ vs, decode_loop st a i ms acc = Return vs.
Proof.
  induction ms as [|[null sig] ms IH]; intros i acc Hms Hlen; [by eexists|].
  apply Forall_cons in Hms as [Hs Hms]. cbn [snd] in Hs. simpl in Hlen.
  destruct (lookup_lt_is_Some_2 (cells a) i) as [c Hc]; [lia|].
  cbn [decode_loop].
  assert (∃ acc', decode_arg st a i (null, sig) acc = Return acc')
    as [acc' ->].
  { unfold decode_arg. rewrite Hc.
    case_sig sig; try congruence; cbn [orb]; by eexists. }
  cbn [mbind result_bind]. apply IH; [done|lia].
Qed.

(** C4, as the code has it: [c_to_arguments] has no length check of its
    own.  With fewer cells than the signature has arguments it decodes
    the slots that have a cell and then raises cffi's IndexError at the
    first missing cell, unless one of those slots raised first (only a
    string slot can): so it never returns values, raises IndexError
    when no string slot stands before the missing cell, and raises it
    at once for an empty array.  Cells beyond the argument count are
    not read and change nothing. *)
Theorem c_to_arguments_raw_length :
  (∀ m a st, (length (cells a) < length (finditer (signature m)))%nat →
     c_to_arguments m a st
     = match decode_loop st a 0
               (take (length (cells a)) (finditer (signature m))) [] with
       | Return _ => Raise IndexError
       | Raise e => Raise e
       end)
  ∧ (∀ m a st, (length (cells a) < length (finditer (signature m)))%nat →
     ∃ e, c_to_arguments m a st = Raise e)
  ∧ (∀ m a st, (length (cells a) < length (finditer (signature m)))%nat →
     Forall (λ g : groups, g.2 ≠ ord "s")
       (take (length (cells a)) (finditer (signature m))) →
     c_to_arguments m a st = Raise IndexError)
  ∧ (∀ m p st, finditer (signature m) ≠ [] →
     c_to_arguments m {| addr := p; cells := [] |} st = Raise IndexError)
  ∧ (∀ m p cs extra st, (length (finditer (signature m)) ≤ length cs)%nat →
     c_to_arguments m {| addr := p; cells := cs ++ extra |} st
     = c_to_arguments m {| addr := p; cells := cs |} st).
Proof.
  split; [|split; [|split; [|split]]].
  - intros m a st Hlen. by apply decode_loop_missing.
  - intros m a st Hlen. apply decode_loop_short; simpl; lia.
  - intros m a st Hlen Hms. unfold c_to_arguments.
    rewrite decode_loop_missing by done.
    destruct (decode_loop_no_string st a _ 0 [] Hms) as [vs ->]; [|done].
    rewrite length_take. lia.
  - intros m p st Hne. unfold c_to_arguments.
    by destruct (finditer (signature m)).
  - intros m p cs extra st Hlen. by apply decode_loop_extra.
Qed.

Lemma c_to_arguments_raw_length_witness :
  c_to_arguments (message "si" [None; None])
    {| addr := 4096; cells := [NULL] |} state0 = Raise RuntimeError
  ∧ (∃ e, c_to_arguments (message "ii" [None; None])
            {| addr := 4096; cells := [5] |} state0 = Raise e)
  ∧ c_to_arguments (message "iou" [None; Some WlCore; None])
      {| addr := 4096; cells := [5; 2048] |} state0 = Raise IndexError
  ∧ c_to_arguments (message "i" [None]) {| addr := 4096; cells := [] |} state0
    = Raise IndexError
  ∧ c_to_arguments (message "i" [None])
      {| addr := 4096; cells := [5] ++ [6] |} state0
    = c_to_arguments (message "i" [None]) {| addr := 4096; cells := [5] |} state0.
Proof.
  pose proof c_to_arguments_raw_length
    as (Hfirst & Hfew & Hindex & Hnone & Hmany).
  split; [|split; [|split; [|split]]].
  - rewrite Hfirst by (vm_compute; lia). reflexivity.
  - apply Hfew. vm_compute. lia.
  - apply Hindex; [vm_compute; lia|].
    change (take _ _) with ([([], ord "i"); ([], ord "o")] : list groups).
    repeat (apply List.Forall_cons; [by vm_compute|]). apply List.Forall_nil.
  - by apply Hnone.
  - apply Hmany. vm_compute. lia.
Defined.

(** C4 as stated fails: an array longer than the signature is decoded
    without any error. *)
Lemma signature_mismatch_counterexample :
  length (finditer (str "i")) = 1%nat
  ∧ c_to_arguments (message "i" [None]) {| addr := 4096; cells := [5; 6] |}
      state0 = Return [VInt 5]
  ∧ ¬ signature_mismatch_claim.
Proof.
  repeat split; try reflexivity. intros H.
  destruct (H (message "i" [None]) {| addr := 4096; cells := [5; 6] |} state0)
    as [e He]; [by vm_compute|].
  by vm_compute in He.
Qed.

(** C3, at the failing inputs: for an object, a new id or an array slot
    [c_to_arguments] returns normally and appends nothing, so the list
    it returns is shorter than the signature; in general the list has
    one item per [i], [u], [f], [h] or [s] slot only. *)
Theorem c_to_arguments_skips :
  (∀ tys p c st,
     c_to_arguments (message "o" tys) {| addr := p; cells := [c] |} st = Return []
     ∧ c_to_arguments (message "n" tys) {| addr := p; cells := [c] |} st = Return []
     ∧ c_to_arguments (message "a" tys) {| addr := p; cells := [c] |} st = Return []
     ∧ c_to_arguments (message "ioi" tys)
         {| addr := p; cells := [1; c; 2] |} st = Return [VInt 1; VInt 2])
  ∧ (∀ m a st vs, c_to_arguments m a st = Return vs →
     length vs = length (filter (λ g, decodes g = true) (finditer (signature m)))).
Proof.
  split.
  - intros tys p c st. repeat split; reflexivity.
  - intros m a st vs H. by apply decode_loop_length in H.
Qed.

Lemma c_to_arguments_skips_witness :
  c_to_arguments (message "niuh" [Some WlRequests; None; None; None])
    {| addr := 4096; cells := [0; 4294967291; 7; 3] |} state0
  = Return [VInt (-5); VInt 7; VInt 3]
  ∧ length [VInt (-5); VInt 7; VInt 3]
    = length (filter (λ g, decodes g = true) (finditer (str "niuh"))).
Proof.
  split; [reflexivity|].
  apply (proj2 c_to_arguments_skips
           (message "niuh" [Some WlRequests; None; None; None])
           {| addr := 4096; cells := [0; 4294967291; 7; 3] |} state0).
  reflexivity.
Defined.

Lemma finditer_descriptors_witness :
  finditer (ord "2" :: str "n?o") = finditer (str "n?o")
  ∧ map descriptor (finditer (str "2n?o")) = [(false, ord "n"); (true, ord "o")].
Proof.
  pose proof finditer_descriptors as (Hd & _ & Hskip & _).
  split; [by apply Hskip|]. rewrite Hd. reflexivity.
Defined.

(** ** Object, null and array arguments *)

(** C6, as the code has it: for an object slot [arguments_to_c] writes
    the [_ptr] of the object into the cell and keeps it in [refs],
    whatever the type table says about the slot and whatever the
    interface of the object is; nothing is checked and nothing raised. *)
Theorem arguments_to_c_object :
  (∀ m o st, signature m = str "o" ∨ signature m = str "?o" →
     arguments_to_c m [VObj o] st
     = Return ({| addr := next st; cells := [Proxy._ptr o] |},
               after_arguments 1 (Some [Proxy._ptr o]) st))
  ∧ (∀ i null l st o it c,
     arg_iter l = VObj o :: it → args_ptr l !! i = Some c →
     encode_arg i (null, ord "o") l st
     = Return ({| arg_iter := it;
                  args_ptr := <[i := Proxy._ptr o]> (args_ptr l);
                  refs := refs l ++ [Proxy._ptr o] |}, st)).
Proof.
  split.
  - intros m o st [Hs|Hs]; unfold arguments_to_c; rewrite Hs; reflexivity.
  - intros i null l st o it c Hit Hc. unfold encode_arg. eval_letters.
    rewrite Hit. unfold_run. cbn [is_None py_ptr]. by rewrite Hc.
Qed.

Lemma arguments_to_c_object_witness :
  arguments_to_c (message "?o" [Some WlCore])
    [VObj {| Proxy._ptr := 2048; Proxy.interface := WlRequests |}] state0
  = Return ({| addr := 4096; cells := [2048] |},
            after_arguments 1 (Some [2048]) state0)
  ∧ encode_arg 1 ([], ord "o")
      {| arg_iter := [VObj {| Proxy._ptr := 2048; Proxy.interface := WlCore |}];
         args_ptr := [0; 0]; refs := [] |} state0
    = Return ({| arg_iter := []; args_ptr := [0; 2048]; refs := [2048] |}, state0).
Proof.
  pose proof arguments_to_c_object as (Hwhole & Hbody).
  split.
  - apply Hwhole. by right.
  - exact (Hbody 1%nat []
             {| arg_iter := [VObj {| Proxy._ptr := 2048;
                                     Proxy.interface := WlCore |}];
                args_ptr := [0; 0]; refs := [] |}
             state0 _ [] 0 eq_refl eq_refl).
Defined.

(** C6 as stated fails: an object of interface [wl_requests] passed for
    a slot typed [wl_core] is encoded without any error. *)
Lemma type_mismatch_counterexample :
  arguments_to_c (message "o" [Some WlCore])
    [VObj {| Proxy._ptr := 2048; Proxy.interface := WlRequests |}] state0
  = Return ({| addr := 4096; cells := [2048] |},
            {| next := 4104; mem := ∅; weakkeydict := {[ 4096 := [2048] ]} |})
  ∧ ¬ type_mismatch_claim.
Proof.
  split; [reflexivity|]. intros H.
  destruct (H (message "o" [Some WlCore])
              {| Proxy._ptr := 2048; Proxy.interface := WlRequests |}
              WlCore state0) as [e He]; try done.
Qed.

(** C5, at its failing inputs.  Encoding [None]: a slot without the
    question mark raises [Exception], a slot with it gets the NULL
    pointer and the call returns.  Decoding that cell: for a string
    slot the test [arg_ptr == ffi.NULL] compares the address of the
    cell, never NULL, so [ffi.string] is called on the NULL pointer and
    raises RuntimeError; for an object slot nothing is appended.  In
    neither case is [None] returned. *)
Theorem null_arguments :
  (∀ i sig l st it, sig = ord "s" ∨ sig = ord "o" →
     arg_iter l = VNone :: it →
     encode_arg i ([], sig) l st = Raise Exception)
  ∧ (∀ i sig l st it c, sig = ord "s" ∨ sig = ord "o" →
     arg_iter l = VNone :: it → args_ptr l !! i = Some c →
     encode_arg i ([qmark], sig) l st
     = Return ({| arg_iter := it; args_ptr := <[i := NULL]> (args_ptr l);
                  refs := refs l |}, st))
  ∧ (∀ tys st, 0 < next st →
     arguments_to_c (message "?s" tys) [VNone] st
     = Return ({| addr := next st; cells := [NULL] |}, after_arguments 1 None st)
     ∧ c_to_arguments (message "?s" tys) {| addr := next st; cells := [NULL] |}
         (after_arguments 1 None st) = Raise RuntimeError
     ∧ arguments_to_c (message "?o" tys) [VNone] st
       = Return ({| addr := next st; cells := [NULL] |}, after_arguments 1 None st)
     ∧ c_to_arguments (message "?o" tys) {| addr := next st; cells := [NULL] |}
         (after_arguments 1 None st) = Return []).
Proof.
  split; [|split].
  - intros i sig l st it [-> | ->] Hit; unfold encode_arg; eval_letters;
      by rewrite Hit.
  - intros i sig l st it c [-> | ->] Hit Hc; unfold encode_arg; eval_letters;
      rewrite Hit; unfold_run; cbn [is_None py_not qmark]; by rewrite Hc.
  - intros tys st Hst. repeat split; try reflexivity.
    unfold c_to_arguments. change (finditer _) with [([qmark], ord "s")].
    cbn [decode_loop]. unfold decode_arg. cbn [cells addr].
    change ([NULL] !! 0%nat) with (Some NULL).
    eval_letters.
    rewrite (proj2 (Z.eqb_neq _ NULL)); [reflexivity|].
    unfold NULL, sizeof_wl_argument. lia.
Qed.

Lemma null_arguments_witness :
  encode_arg 0 ([], ord "s")
    {| arg_iter := [VNone]; args_ptr := [0]; refs := [] |} state0
  = Raise Exception
  ∧ encode_arg 0 ([qmark], ord "o")
      {| arg_iter := [VNone]; args_ptr := [7]; refs := [] |} state0
    = Return ({| arg_iter := []; args_ptr := [NULL]; refs := [] |}, state0)
  ∧ c_to_arguments (message "?s" [None]) {| addr := 4096; cells := [NULL] |}
      (after_arguments 1 None state0) = Raise RuntimeError
  ∧ c_to_arguments (message "?o" [Some WlCore])
      {| addr := 4096; cells := [NULL] |}
      (after_arguments 1 None state0) = Return [].
Proof.
  pose proof null_arguments as (Hraise & Hnull & Hwhole).
  split; [|split; [|split]].
  - apply (Hraise 0%nat (ord "s") _ state0 []); [by left|done].
  - exact (Hnull 0%nat (ord "o")
             {| arg_iter := [VNone]; args_ptr := [7]; refs := [] |}
             state0 [] 7 (or_intror eq_refl) eq_refl eq_refl).
  - apply (Hwhole [None] state0). reflexivity.
  - apply (Hwhole [Some WlCore] state0). reflexivity.
Defined.

Lemma encode_arg_array_raises i null l st :
  ∃ e, encode_arg i (null, ord "a") l st = Raise e.
Proof.
  unfold encode_arg. eval_letters. unfold_run.
  destruct (arg_iter l) as [|arg it]; [by eexists|].
  destruct arg; cbn [py_len]; by eexists.
Qed.

Lemma encode_loop_array_raises ms : ∀ i l st j null,
  ms !! j = Some (null, ord "a") → ∃ e, encode_loop i ms l st = Raise e.
Proof.
  induction ms as [|g ms IH]; intros i l st j null Hj; [done|].
  cbn [encode_loop]. unfold mbind, M_bind.
  destruct j as [|j].
  - injection Hj as ->. destruct (encode_arg_array_raises i null l st) as [e ->].
    by exists e.
  - cbn in Hj. destruct (encode_arg i g l st) as [[l1 st1]|e]; [|by exists e].
    by apply (IH _ _ _ j null).
Qed.

(** C7, at its failing input: for an array slot [arguments_to_c]
    allocates the [struct wl_array] and then raises ValueError at
    [ffi.new('void []', len(arg))], before the size is set, the bytes
    are copied or anything is kept in [refs]; so no call whose
    signature has an array slot returns, and no raw array with an array
    descriptor is ever produced. *)
Theorem arguments_to_c_array :
  (∀ tys b st,
     arguments_to_c (message "a" tys) [VBytes b] st = Raise ValueError)
  ∧ (∀ i null l st b it, arg_iter l = VBytes b :: it →
     encode_arg i (null, ord "a") l st = Raise ValueError)
  ∧ (∀ m args st j null,
     finditer (signature m) !! j = Some (null, ord "a") →
     ∃ e, arguments_to_c m args st = Raise e).
Proof.
  split; [|split].
  - intros tys b st. reflexivity.
  - intros i null l st b it Hit. unfold encode_arg. eval_letters.
    rewrite Hit. reflexivity.
  - intros m args st j null Hj. unfold arguments_to_c.
    unfold mbind at 1, M_bind, ffi_new_arguments. cbn [cells addr].
    unfold mbind at 1, M_bind.
    destruct (encode_loop_array_raises (finditer (signature m)) 0
                {| arg_iter := args;
                   args_ptr := replicate (length (findall (signature m))) 0;
                   refs := [] |}
                {| next := next st
                           + Z.max 1 (sizeof_wl_argument
                                      * Z.of_nat (length (findall (signature m))));
                   mem := mem st; weakkeydict := weakkeydict st |}
                j null Hj) as [e ->].
    by exists e.
Qed.

Lemma arguments_to_c_array_witness :
  encode_arg 0 ([], ord "a")
    {| arg_iter := [VBytes [1; 2; 3]]; args_ptr := [0]; refs := [] |} state0
  = Raise ValueError
  ∧ ∃ e, arguments_to_c (message "ia" [None; None])
           [VInt 1; VBytes [1; 2; 3]] state0 = Raise e.
Proof.
  pose proof arguments_to_c_array as (_ & Hbody & Hany).
  split.
  - exact (Hbody 0%nat []
             {| arg_iter := [VBytes [1; 2; 3]]; args_ptr := [0]; refs := [] |}
             state0 [1; 2; 3] [] eq_refl).
  - exact (Hany (message "ia" [None; None]) [VInt 1; VBytes [1; 2; 3]] state0
             1%nat [] eq_refl).
Defined.

(** ** Cells and fixed-point numbers *)

Ltac lia_div := Z.to_euclidean_division_equations; lia.

Lemma wrap32_range x : - 2 ^ 31 ≤ wrap32 x < 2 ^ 31.
Proof.
  unfold wrap32. destruct (Z.ltb_spec (x mod 2 ^ 32) (2 ^ 31)); lia_div.
Qed.

Lemma wrap32_small x : - 2 ^ 31 ≤ x < 2 ^ 31 → wrap32 x = x.
Proof.
  intros Hx. unfold wrap32.
  destruct (Z.ltb_spec (x mod 2 ^ 32) (2 ^ 31)); lia_div.
Qed.

Lemma wrap32_set_low32 v c : wrap32 (set_low32 v c) = wrap32 v.
Proof.
  unfold wrap32, set_low32.
  replace ((c / 2 ^ 32 * 2 ^ 32 + v mod 2 ^ 32) mod 2 ^ 32) with (v mod 2 ^ 32);
    [done|].
  rewrite Z.add_comm, Z.mod_add by lia. by rewrite Z.mod_mod by lia.
Qed.

Lemma get_u_set_low32 v c : 0 ≤ v < 2 ^ 32 → get_u (set_low32 v c) = v.
Proof.
  intros Hv. unfold get_u, set_low32.
  rewrite Z.add_comm, Z.mod_add by lia. rewrite Z.mod_mod by lia.
  by apply Z.mod_small.
Qed.

Lemma to_int32_Return z :
  - 2 ^ 31 ≤ z < 2 ^ 31 → to_int32 (VInt z) = Return z.
Proof.
  intros Hz. unfold to_int32.
  destruct (Z.leb_spec (- 2 ^ 31) z); [|lia].
  destruct (Z.ltb_spec z (2 ^ 31)); [done|lia].
Qed.

Lemma to_uint32_Return z :
  0 ≤ z < 2 ^ 32 → to_uint32 (VInt z) = Return z.
Proof.
  intros Hz. unfold to_uint32.
  destruct (Z.leb_spec 0 z); [|lia].
  destruct (Z.ltb_spec z (2 ^ 32)); [done|lia].
Qed.

(** The nearest integer is within one half, and within any integer
    bounds of the number rounded. *)
Lemma round_half_even_near q :
  2 * Z.abs (round_half_even q * Z.pos (Qden q) - Qnum q) ≤ Z.pos (Qden q).
Proof.
  unfold round_half_even. destruct q as [a d]. cbn [Qnum Qden].
  pose proof (Pos2Z.is_pos d).
  destruct (Z.ltb_spec (2 * (a mod Z.pos d)) (Z.pos d));
    [|destruct (Z.ltb_spec (Z.pos d) (2 * (a mod Z.pos d)));
      [|destruct (Z.even (a / Z.pos d))]];
    Z.to_euclidean_division_equations; nia.
Qed.

Lemma round_half_even_bounds q lo hi :
  lo * Z.pos (Qden q) ≤ Qnum q ≤ hi * Z.pos (Qden q) →
  lo ≤ round_half_even q ≤ hi.
Proof.
  unfold round_half_even. destruct q as [a d]. cbn [Qnum Qden].
  pose proof (Pos2Z.is_pos d). intros Hq.
  destruct (Z.ltb_spec (2 * (a mod Z.pos d)) (Z.pos d));
    [|destruct (Z.ltb_spec (Z.pos d) (2 * (a mod Z.pos d)));
      [|destruct (Z.even (a / Z.pos d))]];
    Z.to_euclidean_division_equations; nia.
Qed.

Lemma round_half_even_exact q k :
  Qnum q = k * Z.pos (Qden q) → round_half_even q = k.
Proof.
  unfold round_half_even. destruct q as [a d]. cbn [Qnum Qden].
  pose proof (Pos2Z.is_pos d). intros ->.
  rewrite Z.mod_mul, Z.div_mul by lia.
  destruct (Z.ltb_spec (2 * 0) (Z.pos d)); [done|lia].
Qed.

(** ** UTF-8 *)

Ltac range_tests :=
  repeat match goal with
  | |- context [in_range ?lo ?hi ?x] =>
      first
        [ replace (in_range lo hi x) with true
            by (symmetry; unfold in_range; apply andb_true_intro;
                split; apply Z.leb_le; lia_div)
        | replace (in_range lo hi x) with false
            by (symmetry; unfold in_range; apply andb_false_iff;
                (left + right); apply Z.leb_gt; lia_div) ]
  end.

Lemma utf8_char_decode c :
  scalar c →
  ∃ bs, utf8_char c = Some bs
    ∧ (∀ rest, utf8_decode (bs ++ rest) = cons c <$> utf8_decode rest)
    ∧ (0 < c → Forall (λ b, b ≠ 0) bs).
Proof.
  intros Hc. unfold utf8_char.
  destruct (Z.ltb_spec c 0); [unfold scalar in Hc; lia|].
  destruct (Z.ltb_spec c 0x80).
  { eexists. split; [done|]. split.
    - intros rest. cbn [app utf8_decode]. range_tests. done.
    - intros ?. repeat constructor. lia. }
  destruct (Z.ltb_spec c 0x800).
  { eexists. split; [done|]. split.
    - intros rest. cbn [app utf8_decode]. unfold cont. range_tests.
      cbn [andb]. cbv iota. do 2 f_equal. lia_div.
    - intros ?. repeat constructor; lia_div. }
  destruct (Z.ltb_spec c 0x10000).
  { replace ((0xD800 <=? c) && (c <? 0xE000)) with false.
    2:{ symmetry. apply andb_false_iff. unfold scalar in Hc.
        destruct Hc; [left; apply Z.leb_gt|right; apply Z.ltb_ge]; lia. }
    eexists. split; [done|]. split.
    - intros rest. cbn [app utf8_decode]. unfold cont.
      destruct (Z.eqb_spec (0xE0 + c / 4096) 0xE0);
        destruct (Z.eqb_spec (0xE0 + c / 4096) 0xED);
        unfold scalar in Hc; range_tests; cbn [andb]; cbv iota;
        do 2 f_equal; lia_div.
    - intros ?. repeat constructor; lia_div. }
  destruct (Z.ltb_spec c 0x110000); [|unfold scalar in Hc; lia].
  eexists. split; [done|]. split.
  - intros rest. cbn [app utf8_decode]. unfold cont.
    destruct (Z.eqb_spec (0xF0 + c / 262144) 0xF0);
      destruct (Z.eqb_spec (0xF0 + c / 262144) 0xF4);
      range_tests; cbn [andb]; cbv iota; do 2 f_equal; lia_div.
  - intros ?. repeat constructor; lia_div.
Qed.

Lemma utf8_round_trip (s : list Z) :
  Forall scalar s →
  ∃ bs, utf8_encode s = Some bs ∧ utf8_decode bs = Some s
    ∧ (Forall (λ c, 0 < c) s → Forall (λ b, b ≠ 0) bs).
Proof.
  induction 1 as [|c s Hc _ (bs & He & Hd & Hz)]; [by exists []|].
  destruct (utf8_char_decode c Hc) as (cs & Hcs & Hcd & Hcz).
  exists (cs ++ bs). cbn [utf8_encode]. rewrite Hcs, He.
  split; [done|]. split.
  - by rewrite Hcd, Hd.
  - intros [H0 Hs]%Forall_cons. apply Forall_app. auto.
Qed.

Lemma c_string_terminated (bs : list Z) :
  Forall (λ b, b ≠ 0) bs → c_string (bs ++ [0]) = bs.
Proof.
  induction 1 as [|b bs Hb _ IH]; [done|].
  cbn [app c_string]. rewrite (proj2 (Z.eqb_neq b 0) Hb). by rewrite IH.
Qed.

(** ** Round trip *)

(** One turn of the encoding loop on an exact value, and what the
    decoding loop later reads in the cell it wrote: [st2] is any later
    state in which the allocations of the turn are still live. *)
Lemma encode_exact i g v l st c0 it :
  exact_value g v → arg_iter l = v :: it → args_ptr l !! i = Some c0 →
  0 < next st →
  ∃ c refs' st1,
    encode_arg i g l st
    = Return ({| arg_iter := it; args_ptr := <[i := c]> (args_ptr l);
                 refs := refs' |}, st1)
    ∧ ∀ a st2 acc, cells a !! i = Some c → 0 < addr a →
        (∀ p, p < next st1 → mem st2 !! p = mem st1 !! p) →
        ∃ v', decode_arg st2 a i g acc = Return (acc ++ [v'])
              ∧ py_eq v' v = true.
Proof.
  intros Hv Hit Hc0 Hst.
  destruct Hv as [null z Hz|null z Hz|null z Hz|null z Hz|null q k Hk Hq|null s Hs];
    unfold encode_arg; eval_letters; rewrite Hit; cbv iota.
  - rewrite (to_int32_Return z) by done. unfold_run. rewrite Hc0.
    do 3 eexists. split; [done|]. intros a st2 acc Ha _ _.
    unfold decode_arg. rewrite Ha. eval_letters. eexists. split; [done|].
    unfold get_i. rewrite wrap32_set_low32, wrap32_small by done.
    apply Z.eqb_refl.
  - rewrite (to_uint32_Return z) by done. unfold_run. rewrite Hc0.
    do 3 eexists. split; [done|]. intros a st2 acc Ha _ _.
    unfold decode_arg. rewrite Ha. eval_letters. eexists. split; [done|].
    rewrite get_u_set_low32 by done. apply Z.eqb_refl.
  - rewrite (to_int32_Return z) by done. unfold_run. rewrite Hc0.
    do 3 eexists. split; [done|]. intros a st2 acc Ha _ _.
    unfold decode_arg. rewrite Ha. eval_letters. eexists. split; [done|].
    unfold get_h. rewrite wrap32_set_low32, wrap32_small by done.
    apply Z.eqb_refl.
  - cbn [isinstance_int]. unfold wl_fixed_from_int.
    rewrite (to_int32_Return z) by lia. cbn [mbind result_bind].
    rewrite (wrap32_small (z * 256)) by lia. unfold_run. cbv beta iota.
    rewrite (to_int32_Return (z * 256)) by lia. rewrite Hc0.
    do 3 eexists. split; [done|]. intros a st2 acc Ha _ _.
    unfold decode_arg. rewrite Ha. eval_letters. eexists. split; [done|].
    unfold get_f. rewrite wrap32_set_low32, wrap32_small by lia.
    cbn [py_eq]. apply Qeq_bool_iff. unfold wl_fixed_to_double, Qeq.
    cbn [Qnum Qden inject_Z]. lia.
  - cbn [isinstance_int wl_fixed_from_double].
    assert (round_half_even (q * 256) = k) as ->.
    { apply round_half_even_exact. destruct q as [n d]. unfold Qeq in Hq.
      cbn [Qnum Qden Qmult] in *. lia. }
    rewrite (wrap32_small k) by done. unfold_run. cbv beta iota.
    rewrite (to_int32_Return k) by done. rewrite Hc0.
    do 3 eexists. split; [done|]. intros a st2 acc Ha _ _.
    unfold decode_arg. rewrite Ha. eval_letters. eexists. split; [done|].
    unfold get_f. rewrite wrap32_set_low32, wrap32_small by done.
    cbn [py_eq]. apply Qeq_bool_iff. by symmetry.
  - destruct (utf8_round_trip s) as (bs & He & Hd & Hz).
    { eapply Forall_impl; [done|]. by intros c [? _]. }
    cbn [is_None py_encode]. unfold str_encode. rewrite He.
    unfold_run. cbn [args_ptr refs]. rewrite Hc0.
    do 3 eexists. split; [done|]. cbn [next mem]. intros a st2 acc Ha Haddr Hmem.
    unfold decode_arg. rewrite Ha. eval_letters.
    rewrite (proj2 (Z.eqb_neq _ NULL));
      [|unfold NULL, sizeof_wl_argument; lia].
    unfold set_ptr, get_s, ffi_string.
    rewrite (proj2 (Z.eqb_neq _ NULL)); [|unfold NULL; lia].
    rewrite Hmem by lia. rewrite lookup_insert_eq.
    rewrite c_string_terminated.
    2:{ apply Hz. eapply Forall_impl; [done|]. by intros c [_ ?]. }
    cbn [mbind result_bind]. unfold bytes_decode. rewrite Hd.
    cbn [mbind result_bind]. eexists. split; [done|]. cbn [py_eq]. by apply bool_decide_eq_true.
Qed.

Lemma round_trip_loop ms args :
  Forall2 exact_value ms args →
  ∀ i l st,
    arg_iter l = args → (i + length ms ≤ length (args_ptr l))%nat →
    0 < next st →
    ∃ l' st',
      encode_loop i ms l st = Return (l', st')
      ∧ ∀ p st2 acc, 0 < p →
          (∀ q, q < next st' → mem st2 !! q = mem st' !! q) →
          ∃ vs, decode_loop st2 {| addr := p; cells := args_ptr l' |} i ms acc
                = Return (acc ++ vs)
                ∧ py_list_eq vs args = true.
Proof.
  induction 1 as [|g v ms args Hv _ IH]; intros i l st Hit Hlen Hst.
  - exists l, st. split; [done|]. intros p st2 acc _ _.
    exists []. by rewrite app_nil_r.
  - simpl in Hlen.
    destruct (lookup_lt_is_Some_2 (args_ptr l) i) as [c0 Hc0]; [lia|].
    destruct (encode_exact i g v l st c0 args Hv Hit Hc0 Hst)
      as (c & refs' & st1 & He & Hdec).
    pose proof (encode_arg_frame _ _ _ _ _ _ He)
      as (_ & _ & _ & Hnext1 & _).
    destruct (IH (S i) {| arg_iter := args;
                          args_ptr := <[i := c]> (args_ptr l);
                          refs := refs' |} st1)
      as (l' & st' & Hloop & Hdl); [done| |lia|].
    { cbn [args_ptr]. rewrite length_insert. lia. }
    pose proof (encode_loop_frame _ _ _ _ _ _ Hloop)
      as (_ & Hcells & Hnext & Hmem & _).
    exists l', st'. split.
    { cbn [encode_loop]. unfold mbind, M_bind. by rewrite He. }
    intros p st2 acc Hp Hst2.
    destruct (Hdec {| addr := p; cells := args_ptr l' |} st2 acc)
      as (v' & Hd1 & Heq1); [|done| |].
    { cbn [cells]. rewrite Hcells by lia. cbn [args_ptr].
      apply list_lookup_insert_eq. by eapply lookup_lt_Some. }
    { intros q Hq. rewrite Hst2, Hmem by lia. done. }
    destruct (Hdl p st2 (acc ++ [v']) Hp Hst2) as (vs & Hd2 & Heq2).
    exists (v' :: vs). cbn [decode_loop]. rewrite Hd1. cbn [mbind result_bind].
    rewrite Hd2, <- app_assoc. split; [done|].
    cbn [py_list_eq]. by rewrite Heq1, Heq2.
Qed.

(** C1, as the code has it: for a signature of [i], [u], [f], [h] and
    [s] slots and one exact value per slot (an integer of the C type;
    for [f] a 24-bit integer or a multiple of 1/256 that fits
    [wl_fixed_t]; for [s] a text, not [None], without surrogates and
    without NUL), [arguments_to_c] returns and [c_to_arguments] on
    the array it returns gives a list equal ([==]) to the values. *)
Theorem round_trip_exact m args st :
  0 < next st →
  Forall2 exact_value (finditer (signature m)) args →
  ∃ a st' vs,
    arguments_to_c m args st = Return (a, st')
    ∧ c_to_arguments m a st' = Return vs
    ∧ py_list_eq vs args = true.
Proof.
  intros Hst Hargs. unfold arguments_to_c, c_to_arguments, findall.
  set (nargs := length (finditer (signature m))).
  set (st0 := {| next := next st + Z.max 1 (sizeof_wl_argument * Z.of_nat nargs);
                 mem := mem st; weakkeydict := weakkeydict st |}).
  destruct (round_trip_loop _ _ Hargs 0%nat
              {| arg_iter := args; args_ptr := replicate nargs 0; refs := [] |}
              st0)
    as (l' & st' & Hloop & Hdl); [done| |cbn [next st0]; lia|].
  { cbn [args_ptr]. rewrite length_replicate. subst nargs. lia. }
  unfold mbind at 1, M_bind, ffi_new_arguments. fold st0. cbn [cells addr].
  unfold mbind at 1, M_bind. rewrite Hloop.
  destruct (refs l') as [|r rs].
  - destruct (Hdl (next st) st' []) as (vs & Hvs & Heq); [done..|].
    by exists {| addr := next st; cells := args_ptr l' |}, st', vs.
  - destruct (Hdl (next st)
                {| next := next st'; mem := mem st';
                   weakkeydict := <[next st := r :: rs]> (weakkeydict st') |} [])
      as (vs & Hvs & Heq); [done..|].
    by eexists {| addr := next st; cells := args_ptr l' |}, _, vs.
Qed.

Lemma round_trip_exact_witness :
  ∃ a st' vs,
    arguments_to_c (message "iufhs" [None; None; None; None; None])
      [VInt (-5); VInt 7; VFloat (3 # 2); VInt 3; VStr (str "hi")] state0
    = Return (a, st')
    ∧ c_to_arguments (message "iufhs" [None; None; None; None; None]) a st'
      = Return vs
    ∧ py_list_eq vs [VInt (-5); VInt 7; VFloat (3 # 2); VInt 3; VStr (str "hi")]
      = true.
Proof.
  apply round_trip_exact; [reflexivity|].
  change (finditer _) with
    ([([], ord "i"); ([], ord "u"); ([], ord "f"); ([], ord "h"); ([], ord "s")]
     : list groups).
  constructor; [apply exact_i; lia|].
  constructor; [apply exact_u; lia|].
  constructor; [apply (exact_f_float _ _ 384); [lia|reflexivity]|].
  constructor; [apply exact_h; lia|].
  constructor; [|constructor].
  apply exact_s. change (str "hi") with [104; 105].
  repeat (apply List.Forall_cons; [unfold scalar; lia|]).
  apply List.Forall_nil.
Defined.

(** C1 as stated fails: a float that is no multiple of 1/256 comes
    back rounded, and for an object nothing comes back at all. *)
Lemma round_trip_counterexample :
  arguments_to_c (message "f" [None]) [VFloat (1 # 1024)] state0
  = Return ({| addr := 4096; cells := [0] |}, after_arguments 1 None state0)
  ∧ c_to_arguments (message "f" [None]) {| addr := 4096; cells := [0] |}
      (after_arguments 1 None state0) = Return [VFloat (0 # 256)]
  ∧ py_list_eq [VFloat (0 # 256)] [VFloat (1 # 1024)] = false
  ∧ arguments_to_c (message "o" [Some WlCore])
      [VObj {| Proxy._ptr := 2048; Proxy.interface := WlCore |}] state0
    = Return ({| addr := 4096; cells := [2048] |},
              after_arguments 1 (Some [2048]) state0)
  ∧ c_to_arguments (message "o" [Some WlCore])
      {| addr := 4096; cells := [2048] |}
      (after_arguments 1 (Some [2048]) state0) = Return []
  ∧ ¬ round_trip_claim.
Proof.
  repeat split; try reflexivity. intros H.
  destruct (H (message "o" [Some WlCore])
              [VObj {| Proxy._ptr := 2048; Proxy.interface := WlCore |}] state0
              {| addr := 4096; cells := [2048] |}
              (after_arguments 1 (Some [2048]) state0))
    as (vs & Hvs & Heq); try reflexivity.
  - repeat constructor; by vm_compute.
  - repeat constructor.
  - vm_compute in Hvs. injection Hvs as <-. by vm_compute in Heq.
Qed.

(** Other inputs on which the values do not come back: a text with a
    NUL character: the C string ends there. *)
Example round_trip_nul :
  ∃ st', arguments_to_c (message "s" [None]) [VStr [97; 0; 98]] state0
         = Return ({| addr := 4096; cells := [4104] |}, st')
    ∧ c_to_arguments (message "s" [None]) {| addr := 4096; cells := [4104] |} st'
      = Return [VStr [97]].
Proof. eexists. split; reflexivity. Qed.

(** ** Fixed-point arguments *)

Lemma arguments_to_c_fixed m v f st :
  signature m = str "f" →
  (if isinstance_int v then wl_fixed_from_int v else wl_fixed_from_double v)
  = Return (wrap32 f) →
  arguments_to_c m [v] st
  = Return ({| addr := next st; cells := [set_low32 (wrap32 f) 0] |},
            after_arguments 1 None st).
Proof.
  intros Hs Hf. unfold arguments_to_c. rewrite Hs.
  change (findall (str "f")) with ([([], ord "f")] : list groups).
  change (finditer (str "f")) with ([([], ord "f")] : list groups).
  unfold mbind at 1, M_bind, ffi_new_arguments. cbn [length replicate cells addr].
  cbn [encode_loop]. unfold encode_arg. eval_letters. cbn [arg_iter args_ptr].
  rewrite Hf. unfold_run. cbv beta iota.
  rewrite (to_int32_Return (wrap32 f)) by apply wrap32_range.
  reflexivity.
Qed.

Lemma c_to_arguments_fixed m p c st :
  signature m = str "f" →
  c_to_arguments m {| addr := p; cells := [c] |} st
  = Return [VFloat (wl_fixed_to_double (get_f c))].
Proof. intros Hs. unfold c_to_arguments. rewrite Hs. reflexivity. Qed.

(** C8, as the code has it.  Encoding writes [256 * z] for an integer
    [z] of 24 bits and the nearest integer to [256 * x] for a float
    [x] with [-2^31 <= 256 * x <= 2^31 - 1]; decoding returns the
    member divided by 256.  So an integer in [-2^23, 2^23) comes back
    as an equal float, and such a float comes back within 1/256. *)
Theorem fixed_round_trip :
  (∀ m p c st, signature m = str "f" →
     c_to_arguments m {| addr := p; cells := [c] |} st
     = Return [VFloat (get_f c # 256)])
  ∧ (∀ m z st, signature m = str "f" → - 2 ^ 23 ≤ z < 2 ^ 23 →
     ∃ a st' q',
       arguments_to_c m [VInt z] st = Return (a, st')
       ∧ get_f <$> cells a = [z * 256]
       ∧ c_to_arguments m a st' = Return [VFloat q']
       ∧ (q' == inject_Z z)%Q
       ∧ py_eq (VFloat q') (VInt z) = true)
  ∧ (∀ m q st, signature m = str "f" →
     (- (2147483648 # 1) <= q * 256)%Q → (q * 256 <= 2147483647 # 1)%Q →
     ∃ a st' q',
       arguments_to_c m [VFloat q] st = Return (a, st')
       ∧ get_f <$> cells a = [round_half_even (q * 256)]
       ∧ c_to_arguments m a st' = Return [VFloat q']
       ∧ (Qabs (q' - q) <= 1 # 256)%Q).
Proof.
  split; [|split].
  - intros m p c st Hs. by apply c_to_arguments_fixed.
  - intros m z st Hs Hz.
    exists {| addr := next st; cells := [set_low32 (wrap32 (z * 256)) 0] |},
      (after_arguments 1 None st), ((z * 256) # 256).
    assert (Hw : wrap32 (z * 256) = z * 256) by (apply wrap32_small; lia).
    split; [|split; [|split; [|split]]].
    + apply arguments_to_c_fixed; [done|]. cbn [isinstance_int].
      unfold wl_fixed_from_int. by rewrite (to_int32_Return z) by lia.
    + cbn [fmap list_fmap cells]. unfold get_f.
      by rewrite wrap32_set_low32, Hw, Hw.
    + rewrite c_to_arguments_fixed by done. unfold get_f.
      by rewrite wrap32_set_low32, Hw, Hw.
    + unfold Qeq. cbn [Qnum Qden inject_Z]. lia.
    + cbn [py_eq]. apply Qeq_bool_iff. unfold Qeq. cbn [Qnum Qden inject_Z]. lia.
  - intros m q st Hs Hlo Hhi.
    pose proof (round_half_even_near (q * 256)) as Hnear.
    assert (Hf : - 2 ^ 31 ≤ round_half_even (q * 256) < 2 ^ 31).
    { destruct (round_half_even_bounds (q * 256) (-2147483648) 2147483647);
        [|lia].
      unfold Qle in Hlo, Hhi. cbn [Qnum Qden Qopp] in Hlo, Hhi. lia. }
    remember (round_half_even (q * 256)) as f eqn:Ef.
    assert (Hw : wrap32 f = f) by by apply wrap32_small.
    exists {| addr := next st; cells := [set_low32 (wrap32 f) 0] |},
      (after_arguments 1 None st), (f # 256).
    split; [|split; [|split]].
    + apply arguments_to_c_fixed; [done|].
      cbn [isinstance_int wl_fixed_from_double]. by rewrite <- Ef.
    + cbn [fmap list_fmap cells]. unfold get_f.
      by rewrite wrap32_set_low32, Hw, Hw.
    + rewrite c_to_arguments_fixed by done. unfold get_f.
      by rewrite wrap32_set_low32, Hw, Hw.
    + clear Ef. destruct q as [a d]. cbn [Qnum Qden Qmult] in Hnear.
      unfold Qle, Qabs, Qminus, Qplus, Qopp. cbn [Qnum Qden].
      rewrite Pos2Z.inj_mul in *. lia.
Qed.

Lemma fixed_round_trip_witness :
  (∃ a st' q',
     arguments_to_c (message "f" [None]) [VInt (-3)] state0 = Return (a, st')
     ∧ get_f <$> cells a = [-3 * 256]
     ∧ c_to_arguments (message "f" [None]) a st' = Return [VFloat q']
     ∧ (q' == inject_Z (-3))%Q
     ∧ py_eq (VFloat q') (VInt (-3)) = true)
  ∧ (∃ a st' q',
     arguments_to_c (message "f" [None]) [VFloat (5 # 1024)] state0
     = Return (a, st')
     ∧ get_f <$> cells a = [round_half_even ((5 # 1024) * 256)]
     ∧ c_to_arguments (message "f" [None]) a st' = Return [VFloat q']
     ∧ (Qabs (q' - (5 # 1024)) <= 1 # 256)%Q).
Proof.
  pose proof fixed_round_trip as (_ & Hint & Hfloat).
  split.
  - apply Hint; [reflexivity|lia].
  - apply Hfloat; [reflexivity|by vm_compute..].
Defined.

(** C8 as stated fails: the float [8388608.0] is encoded as [-2^31]
    and comes back as [-8388608.0]. *)
Lemma fixed_precision_counterexample :
  arguments_to_c (message "f" [None]) [VFloat (8388608 # 1)] state0
  = Return ({| addr := 4096; cells := [2147483648] |},
            after_arguments 1 None state0)
  ∧ c_to_arguments (message "f" [None]) {| addr := 4096; cells := [2147483648] |}
      (after_arguments 1 None state0) = Return [VFloat (-2147483648 # 256)]
  ∧ ¬ (Qabs ((-2147483648 # 256) - (8388608 # 1)) <= 1 # 256)%Q
  ∧ ¬ fixed_precision_claim.
Proof.
  split; [reflexivity|]. split; [reflexivity|]. split; [by vm_compute|].
  intros H.
  destruct (H (8388608 # 1)%Q state0 {| addr := 4096; cells := [2147483648] |}
              (after_arguments 1 None state0)) as (q' & Hq' & Hle);
    [reflexivity|].
  vm_compute in Hq'. injection Hq' as <-. by vm_compute in Hle.
Qed.

(** * Further properties of the module *)

(** ** [re_arg]: the shape of the matches and concatenation *)

(** X1: every match of [re_arg] has the empty string or ["?"] as group 1 and
    a letter of the class as group 2: each turn of the two loops enters
    one of the branches written for a letter, never the implicit
    fall-through. *)
Theorem finditer_groups (s : list Z) :
  Forall (λ g : groups, (g.1 = [] ∨ g.1 = [qmark]) ∧ is_kind g.2 = true)
    (finditer s).
Proof.
  assert (H : ∀ n (s : list Z), (length s ≤ n)%nat →
    Forall (λ g : groups, (g.1 = [] ∨ g.1 = [qmark]) ∧ is_kind g.2 = true)
      (finditer s)); [|by apply (H (length s))].
  clear s. induction n as [|n IH]; intros [|c t] Hlen; try (by constructor).
  { simpl in Hlen. lia. }
  simpl in Hlen. rewrite finditer_cons. destruct t as [|d t'].
  - destruct (is_kind c) eqn:Hc; repeat constructor; auto.
  - simpl in Hlen. destruct ((c =? qmark) && is_kind d) eqn:Hq.
    + apply andb_prop in Hq as [_ Hd]. constructor; [auto|]. apply IH. lia.
    + destruct (is_kind c) eqn:Hc.
      * constructor; [auto|]. apply IH. simpl. lia.
      * apply IH. simpl. lia.
Qed.

Lemma finditer_app_aux n : ∀ (s1 s2 : list Z),
  (length s1 ≤ n)%nat → last s1 ≠ Some qmark →
  finditer (s1 ++ s2) = finditer s1 ++ finditer s2.
Proof.
  induction n as [|n IH]; intros [|c t] s2 Hlen Hlast; try done.
  { simpl in Hlen. lia. }
  simpl in Hlen. destruct t as [|d t'].
  - cbn [app]. rewrite !finditer_cons.
    assert ((c =? qmark) = false) as Hc.
    { apply Z.eqb_neq. intros ->. by apply Hlast. }
    rewrite Hc. cbn [andb]. destruct s2; by destruct (is_kind c).
  - simpl in Hlen. change ((c :: d :: t') ++ s2) with (c :: d :: (t' ++ s2)).
    rewrite (finditer_cons c (d :: t' ++ s2)), (finditer_cons c (d :: t')).
    change (d :: t' ++ s2) with ((d :: t') ++ s2).
    destruct ((c =? qmark) && is_kind d) eqn:Hq.
    + rewrite <- app_comm_cons. f_equal. apply IH; [lia|].
      destruct t' as [|e t'']; [done|]. exact Hlast.
    + assert (Hd : finditer ((d :: t') ++ s2)
                   = finditer (d :: t') ++ finditer s2).
      { apply IH; [simpl; lia|]. exact Hlast. }
      rewrite Hd. by destruct (is_kind c).
Qed.

(** X2: scanning splits over concatenation wherever the cut does not fall
    right after a question mark: the arguments of [s1 ++ s2] are those
    of [s1] followed by those of [s2]. *)
Theorem finditer_app (s1 s2 : list Z) :
  last s1 ≠ Some qmark → finditer (s1 ++ s2) = finditer s1 ++ finditer s2.
Proof. by apply (finditer_app_aux (length s1)). Qed.

Lemma finditer_app_witness :
  finditer (str "2n?o" ++ str "?si") = finditer (str "2n?o") ++ finditer (str "?si").
Proof. apply finditer_app. by vm_compute. Defined.

(** ** [Message.__init__]: names, memory and errors *)

Lemma lstrip_app_chars chars (pre s : list Z) :
  Forall (λ c, elem c chars = true) pre →
  lstrip chars (pre ++ s) = lstrip chars s.
Proof.
  induction 1 as [|c pre Hc _ IH]; [done|]. cbn [app lstrip]. by rewrite Hc.
Qed.

Lemma lstrip_all_chars chars (s : list Z) :
  Forall (λ c, elem c chars = true) s → lstrip chars s = [].
Proof.
  intros H. rewrite <- (app_nil_r s). by rewrite lstrip_app_chars.
Qed.

Lemma lstrip_fixed chars (s : list Z) :
  (∀ c t, s = c :: t → elem c chars = false) → lstrip chars s = s.
Proof.
  destruct s as [|c t]; [done|]. intros H. cbn [lstrip].
  by rewrite (H c t eq_refl).
Qed.

Lemma strip_decorated chars (pre base post : list Z) :
  Forall (λ c, elem c chars = true) pre →
  Forall (λ c, elem c chars = true) post →
  (∀ c t, base = c :: t → elem c chars = false) →
  (∀ c t, base = t ++ [c] → elem c chars = false) →
  strip chars (pre ++ base ++ post) = base.
Proof.
  intros Hpre Hpost Hhead Hlast. unfold strip, rstrip.
  rewrite lstrip_app_chars by done.
  destruct base as [|b base'].
  - cbn [app]. by rewrite (lstrip_all_chars chars post).
  - rewrite <- app_comm_cons. cbn [lstrip]. rewrite (Hhead b base' eq_refl).
    rewrite app_comm_cons, rev_app_distr.
    rewrite lstrip_app_chars.
    2:{ apply Forall_forall. intros c Hc%list_elem_of_In%in_rev.
        rewrite Forall_forall in Hpost. by apply Hpost, list_elem_of_In. }
    rewrite lstrip_fixed; [apply rev_involutive|].
    intros c t Hrev. apply (Hlast c (rev t)).
    apply (f_equal (@rev Z)) in Hrev. rewrite rev_involutive in Hrev.
    rewrite Hrev. reflexivity.
Qed.

(** X3: the name of a message is the undecorated name of its function:
    when [__name__] is a name that neither starts nor ends with an
    underscore, wrapped in any number of underscores on either side,
    the message gets exactly that name; so [_func_], [__func] and
    [func] all register as [func]. *)
Theorem Message_init_decorated pre base post sig tys st m st' :
  Forall (λ c, c = ord "_") pre → Forall (λ c, c = ord "_") post →
  (∀ t, base ≠ ord "_" :: t) → (∀ t, base ≠ t ++ [ord "_"]) →
  Message_init {| __name__ := pre ++ base ++ post |} sig tys st
  = Return (m, st') →
  name m = base.
Proof.
  intros Hpre Hpost Hhead Hlast H. unfold Message_init in H. inv_run H.
  apply mret_Return in H as [<- _]. cbn [name __name__].
  apply strip_decorated.
  - eapply Forall_impl; [done|]. intros c. apply elem_underscore.
  - eapply Forall_impl; [done|]. intros c. apply elem_underscore.
  - intros c t -> . destruct (elem c (str "_")) eqn:Hc; [|done].
    apply elem_underscore in Hc as ->. by destruct (Hhead t).
  - intros c t -> . destruct (elem c (str "_")) eqn:Hc; [|done].
    apply elem_underscore in Hc as ->. by destruct (Hlast t).
Qed.

Lemma Message_init_decorated_witness :
  ∃ m st', Message_init {| __name__ := str "__" ++ str "send_event" ++ str "_" |}
             (str "niuh") [None; None; None; None] state0 = Return (m, st')
           ∧ name m = str "send_event".
Proof.
  destruct (Message_init {| __name__ := str "__" ++ str "send_event" ++ str "_" |}
              (str "niuh") [None; None; None; None] state0)
    as [[m st']|e] eqn:H; [|by vm_compute in H].
  exists m, st'. split; [done|].
  apply (Message_init_decorated (str "__") (str "send_event") (str "_")
           (str "niuh") [None; None; None; None] state0 m st').
  - repeat constructor.
  - repeat constructor.
  - intros t Ht. by vm_compute in Ht.
  - intros t Ht. apply (f_equal (@rev Z)) in Ht. rewrite rev_app_distr in Ht.
    by vm_compute in Ht.
  - exact H.
Defined.

Lemma fill_types_map ts : ∀ i (arr : list Z),
  length arr = (i + length ts)%nat →
  fill_types i ts arr = Return (take i arr ++ (type_ptr <$> ts)).
Proof.
  induction ts as [|t ts IH]; intros i arr Hlen; cbn [fill_types].
  - rewrite take_ge by (simpl in Hlen; lia). by rewrite app_nil_r.
  - simpl in Hlen. unfold set_member.
    destruct (lookup_lt_is_Some_2 arr i) as [c Hc]; [lia|]. rewrite Hc.
    cbn [mbind result_bind]. rewrite IH by (rewrite length_insert; lia).
    rewrite (take_S_r _ _ (type_ptr t))
      by (apply list_lookup_insert_eq; lia).
    rewrite take_insert_ge by lia. by rewrite <- app_assoc.
Qed.

(** The run of [__init__] when both strings can be encoded. *)
Lemma Message_init_encodable func sig tys st nb sb :
  utf8_encode (strip (str "_") (__name__ func)) = Some nb →
  utf8_encode sig = Some sb →
  let pn := next st + 24 in
  let ps := pn + (Z.of_nat (length nb) + 1) in
  let pt := ps + (Z.of_nat (length sb) + 1) in
  ∃ st',
    Message_init func sig tys st
    = Return ({| _func := func; name := strip (str "_") (__name__ func);
                 signature := sig; types := tys; _ptr := next st |}, st')
    ∧ mem st' !! next st = Some (BMessage pn ps pt)
    ∧ mem st' !! pn = Some (BChars (nb ++ [0]))
    ∧ mem st' !! ps = Some (BChars (sb ++ [0]))
    ∧ mem st' !! pt = Some (BTypes (type_ptr <$> tys))
    ∧ weakkeydict st' !! next st = Some [pn; ps; pt]
    ∧ (∀ p, p < next st → mem st' !! p = mem st !! p)
    ∧ (∀ k, k ≠ next st → weakkeydict st' !! k = weakkeydict st !! k)
    ∧ next st < next st'.
Proof.
  intros Hn Hs pn ps pt. unfold Message_init, str_encode.
  rewrite Hn, Hs.
  rewrite (fill_types_map tys 0) by (by rewrite length_replicate).
  rewrite take_0. cbn [app].
  unfold mbind, M_bind, liftR, ffi_new, store, weakkeydict_set, mret, M_ret.
  cbn [next mem weakkeydict].
  change (Z.max 1 24) with 24.
  rewrite !(Z.max_r 1 (Z.of_nat _ + 1)) by lia.
  fold pn. fold ps. fold pt.
  assert (next st < pn ∧ pn < ps ∧ ps < pt) as (H1 & H2 & H3)
    by (subst pn ps pt; lia).
  eexists. split; [reflexivity|]. cbn [next mem weakkeydict].
  repeat split.
  - rewrite lookup_insert_ne by lia. by rewrite lookup_insert_eq.
  - repeat (rewrite lookup_insert_ne by lia). by rewrite lookup_insert_eq.
  - repeat (rewrite lookup_insert_ne by lia). by rewrite lookup_insert_eq.
  - by rewrite lookup_insert_eq.
  - by rewrite lookup_insert_eq.
  - intros p Hp. by repeat (rewrite lookup_insert_ne by lia).
  - intros k Hk. by rewrite lookup_insert_ne.
  - lia.
Qed.

(** The run of [__init__] when one of the two strings cannot. *)
Lemma Message_init_unencodable func sig tys st :
  utf8_encode (strip (str "_") (__name__ func)) = None
  ∨ utf8_encode sig = None →
  Message_init func sig tys st = Raise UnicodeEncodeError.
Proof.
  intros H. unfold Message_init, str_encode.
  destruct (utf8_encode (strip (str "_") (__name__ func))) as [nb|] eqn:Hn.
  - destruct H as [H|H]; [done|]. by rewrite H.
  - reflexivity.
Qed.

(** X4: what [__init__] leaves in memory: the [struct wl_message] at a
    fresh address, pointing to the name and the signature as
    NUL-terminated UTF-8 and to an array with one [struct wl_interface *]
    per entry of [types] (NULL for [None]); the three buffers are kept
    alive under the struct in [weakkeydict]; nothing allocated before
    and no other entry of [weakkeydict] is touched. *)
Theorem Message_init_memory func sig tys st m st' :
  Message_init func sig tys st = Return (m, st') →
  ∃ nb sb,
    utf8_encode (name m) = Some nb ∧ utf8_encode (signature m) = Some sb
    ∧ _ptr m = next st
    ∧ let pn := next st + 24 in
      let ps := pn + (Z.of_nat (length nb) + 1) in
      let pt := ps + (Z.of_nat (length sb) + 1) in
      mem st' !! _ptr m = Some (BMessage pn ps pt)
      ∧ mem st' !! pn = Some (BChars (nb ++ [0]))
      ∧ mem st' !! ps = Some (BChars (sb ++ [0]))
      ∧ mem st' !! pt = Some (BTypes (type_ptr <$> types m))
      ∧ weakkeydict st' !! _ptr m = Some [pn; ps; pt]
      ∧ (∀ p, p < next st → mem st' !! p = mem st !! p)
      ∧ (∀ k, k ≠ _ptr m → weakkeydict st' !! k = weakkeydict st !! k).
Proof.
  intros H.
  destruct (utf8_encode (strip (str "_") (__name__ func))) as [nb|] eqn:Hn;
    [|by rewrite Message_init_unencodable in H by auto].
  destruct (utf8_encode sig) as [sb|] eqn:Hs;
    [|by rewrite Message_init_unencodable in H by auto].
  destruct (Message_init_encodable func sig tys st nb sb Hn Hs)
    as (st1 & Hrun & H1 & H2 & H3 & H4 & H5 & H6 & H7 & _).
  rewrite Hrun in H. injection H as <- <-. cbn [name signature types _ptr].
  exists nb, sb. repeat split; done.
Qed.

Lemma Message_init_memory_witness :
  ∃ m st',
    Message_init {| __name__ := str "make_import" |} (str "n?o")
      [Some WlRequests; Some WlCore] state0 = Return (m, st')
    ∧ _ptr m = 4096
    ∧ mem st' !! 4096 = Some (BMessage 4120 4132 4136)
    ∧ mem st' !! 4136 = Some (BTypes [768; 512])
    ∧ weakkeydict st' !! 4096 = Some [4120; 4132; 4136].
Proof.
  destruct (Message_init {| __name__ := str "make_import" |} (str "n?o")
              [Some WlRequests; Some WlCore] state0)
    as [[m st']|e] eqn:H; [|by vm_compute in H].
  exists m, st'. split; [done|].
  destruct (Message_init_memory _ _ _ _ _ _ H)
    as (nb & sb & Hnb & Hsb & Hp & Hm & _ & _ & Ht & Hw & _).
  assert (name m = str "make_import" ∧ signature m = str "n?o"
          ∧ types m = [Some WlRequests; Some WlCore]) as (Hname & Hsig & Hty).
  { vm_compute in H. by injection H as <- _. }
  rewrite Hname in Hnb. rewrite Hsig in Hsb. vm_compute in Hnb, Hsb.
  injection Hnb as <-. injection Hsb as <-.
  rewrite Hp, Hty in *. repeat split; done.
Defined.

(** X5: [__init__] raises exactly when the stripped name or the signature
    holds a character that UTF-8 cannot encode, and then it raises
    UnicodeEncodeError; the loop over [types] never raises. *)
Theorem Message_init_raises func sig tys st e :
  Message_init func sig tys st = Raise e ↔
  e = UnicodeEncodeError
  ∧ (utf8_encode (strip (str "_") (__name__ func)) = None
     ∨ utf8_encode sig = None).
Proof.
  split.
  - intros H.
    destruct (utf8_encode (strip (str "_") (__name__ func))) as [nb|] eqn:Hn.
    + destruct (utf8_encode sig) as [sb|] eqn:Hs.
      * destruct (Message_init_encodable func sig tys st nb sb Hn Hs)
          as (st1 & Hrun & _). by rewrite Hrun in H.
      * rewrite Message_init_unencodable in H by auto.
        injection H as <-. auto.
    + rewrite Message_init_unencodable in H by auto. injection H as <-. auto.
  - intros [-> H]. by apply Message_init_unencodable.
Qed.

Lemma Message_init_raises_witness :
  Message_init {| __name__ := str "f" |} [0xD800] [] state0
  = Raise UnicodeEncodeError.
Proof.
  apply (proj2 (Message_init_raises _ _ _ _ _)). split; [done|]. by right.
Defined.

(** ** [arguments_to_c]: the array returned and the memory touched *)

(** Inversion of a successful call. *)
Lemma arguments_to_c_Return m args st a st' :
  arguments_to_c m args st = Return (a, st') →
  ∃ l st1,
    encode_loop 0 (finditer (signature m))
      {| arg_iter := args;
         args_ptr := replicate (length (finditer (signature m))) 0;
         refs := [] |}
      {| next := next st
                 + Z.max 1 (sizeof_wl_argument
                            * Z.of_nat (length (finditer (signature m))));
         mem := mem st; weakkeydict := weakkeydict st |}
    = Return (l, st1)
    ∧ a = {| addr := next st; cells := args_ptr l |}
    ∧ next st' = next st1 ∧ mem st' = mem st1
    ∧ weakkeydict st'
      = match refs l with
        | [] => weakkeydict st1
        | _ => <[next st := refs l]> (weakkeydict st1)
        end.
Proof.
  intros H. unfold arguments_to_c, findall in H.
  apply bind_Return in H as (a0 & st0 & H0 & H).
  injection H0 as <- <-. cbn [cells addr] in H.
  apply bind_Return in H as (l & st1 & Hloop & H).
  apply bind_Return in H as ([] & st2 & Hw & H).
  apply mret_Return in H as [<- <-].
  exists l, st1. split; [done|]. split; [done|].
  destruct (refs l); [by apply mret_Return in Hw as [_ <-]|].
  unfold weakkeydict_set in Hw. by injection Hw as <-.
Qed.

(** X6: A call that returns gives an array at a fresh address with one cell
    per argument of the signature; everything allocated before the call
    is left as it was, and so is every entry of [weakkeydict] but the
    one of the new array. *)
Theorem arguments_to_c_frame m args st a st' :
  arguments_to_c m args st = Return (a, st') →
  addr a = next st
  ∧ length (cells a) = length (finditer (signature m))
  ∧ next st < next st'
  ∧ (∀ p, p < next st → mem st' !! p = mem st !! p)
  ∧ (∀ k, k ≠ addr a → weakkeydict st' !! k = weakkeydict st !! k).
Proof.
  intros H.
  apply arguments_to_c_Return in H as (l & st1 & Hloop & -> & Hn & Hm & Hw).
  apply encode_loop_frame in Hloop as (Hlen & _ & Hnext & Hmem & Hwk & _).
  cbn [args_ptr next mem weakkeydict addr cells] in *.
  rewrite length_replicate in Hlen.
  split; [done|]. split; [done|]. split; [lia|]. split.
  - intros p Hp. rewrite Hm. apply Hmem. lia.
  - intros k Hk. rewrite Hw.
    destruct (refs l); rewrite ?lookup_insert_ne by done; by rewrite Hwk.
Qed.

Lemma arguments_to_c_frame_witness :
  ∃ a st',
    arguments_to_c (message "s?oi" [None; Some WlCore; None])
      [VStr (str "hi"); VNone; VInt 2]
      {| next := 4096; mem := {[ 64 := BChars [7; 0] ]};
         weakkeydict := {[ 32 := [64] ]} |} = Return (a, st')
    ∧ addr a = 4096 ∧ length (cells a) = 3%nat
    ∧ mem st' !! 64 = Some (BChars [7; 0])
    ∧ weakkeydict st' !! 32 = Some [64].
Proof.
  destruct (arguments_to_c (message "s?oi" [None; Some WlCore; None])
              [VStr (str "hi"); VNone; VInt 2]
              {| next := 4096; mem := {[ 64 := BChars [7; 0] ]};
                 weakkeydict := {[ 32 := [64] ]} |})
    as [[a st']|e] eqn:H; [|by vm_compute in H].
  exists a, st'. split; [done|].
  destruct (arguments_to_c_frame _ _ _ _ _ H) as (Ha & Hl & _ & Hm & Hw).
  cbn [next mem weakkeydict] in *.
  split; [done|]. split; [exact Hl|]. split.
  - rewrite Hm by lia. reflexivity.
  - rewrite Hw by (rewrite Ha; lia). reflexivity.
Defined.

Lemma encode_arg_newid i null l st l' st' :
  encode_arg i (null, ord "n") l st = Return (l', st') →
  args_ptr l' !! i = Some NULL.
Proof.
  unfold encode_arg. eval_letters. unfold_run.
  destruct (args_ptr l !! i) as [c|] eqn:Hc; [|done].
  intros [= <- _]. cbn [args_ptr]. apply list_lookup_insert_eq.
  by eapply lookup_lt_Some.
Qed.

Lemma encode_loop_newid_cells ms : ∀ i l st l' st',
  encode_loop i ms l st = Return (l', st') →
  ∀ j null, ms !! j = Some (null, ord "n") →
    args_ptr l' !! (i + j)%nat = Some NULL.
Proof.
  induction ms as [|g ms IH]; intros i l st l' st' H j null Hj; [done|].
  cbn [encode_loop] in H. apply bind_Return in H as (l1 & st1 & H1 & H).
  pose proof (encode_loop_frame _ _ _ _ _ _ H) as (_ & Hcells & _).
  destruct j as [|j].
  - injection Hj as ->. rewrite Nat.add_0_r. rewrite Hcells by lia.
    by eapply encode_arg_newid.
  - cbn in Hj. replace (i + S j)%nat with (S i + j)%nat by lia.
    by apply (IH _ _ _ _ _ H j null).
Qed.

(** X7: in the array a call returns, the cell of every new-id slot is
    NULL, wherever the slot stands in the signature: the new id is left
    for the marshalling to assign. *)
Theorem arguments_to_c_null_cells m args st a st' j null :
  arguments_to_c m args st = Return (a, st') →
  finditer (signature m) !! j = Some (null, ord "n") →
  cells a !! j = Some NULL.
Proof.
  intros H Hj.
  apply arguments_to_c_Return in H as (l & st1 & Hloop & -> & _).
  by apply (encode_loop_newid_cells _ _ _ _ _ _ Hloop j null).
Qed.

Lemma arguments_to_c_null_cells_witness :
  ∃ a st',
    arguments_to_c (message "inhn" [None; Some WlCore; None; Some WlRequests])
      [VInt 1; VInt 4] state0 = Return (a, st')
    ∧ cells a !! 1%nat = Some NULL ∧ cells a !! 3%nat = Some NULL.
Proof.
  destruct (arguments_to_c
              (message "inhn" [None; Some WlCore; None; Some WlRequests])
              [VInt 1; VInt 4] state0)
    as [[a st']|e] eqn:H; [|by vm_compute in H].
  exists a, st'. split; [done|]. split.
  - by apply (arguments_to_c_null_cells _ _ _ _ _ 1%nat [] H).
  - by apply (arguments_to_c_null_cells _ _ _ _ _ 3%nat [] H).
Defined.

(** ** [arguments_to_c]: the values it takes *)

Lemma wrap32_int32 x :
  (- 2 ^ 31 <=? wrap32 x) && (wrap32 x <? 2 ^ 31) = true.
Proof.
  pose proof (wrap32_range x). apply andb_true_intro.
  split; [apply Z.leb_le|apply Z.ltb_lt]; lia.
Qed.

Lemma encode_arg_accepts i g l st v it c :
  args_ptr l !! i = Some c → arg_iter l = v :: it →
  g.2 ≠ ord "n" → accepts g v = true →
  ∃ l' st', encode_arg i g l st = Return (l', st').
Proof.
  destruct g as [null sig]. unfold accepts, encode_arg. cbn [fst snd].
  intros Hc Hit Hn. rewrite Hit.
  case_sig sig; try done; cbv iota; intros Hacc;
    destruct v; try discriminate Hacc;
    unfold int32, uint32, encodable in Hacc;
    unfold_run; cbn [is_None isinstance_int py_ptr py_len py_buffer py_encode];
    unfold to_int32, to_uint32, wl_fixed_from_int, wl_fixed_from_double,
      str_encode;
    cbn [mbind result_bind to_int32];
    rewrite ?Hacc, ?Hc; cbv iota beta;
    rewrite ?wrap32_int32;
    try (destruct (py_not null); [done|]);
    try (destruct (utf8_encode _); [|done]);
    rewrite ?Hc; eauto.
  unfold mbind, result_bind. rewrite wrap32_int32. eauto.
Qed.

Lemma encode_arg_rejects i g l st v it :
  arg_iter l = v :: it → g.2 ≠ ord "n" → accepts g v = false →
  ∃ e, encode_arg i g l st = Raise e.
Proof.
  destruct g as [null sig]. unfold accepts, encode_arg. cbn [fst snd].
  intros Hit Hn. rewrite Hit.
  case_sig sig; try done; cbv iota; intros Hacc;
    destruct v; try discriminate Hacc;
    unfold int32, uint32, encodable in Hacc;
    unfold_run; cbn [is_None isinstance_int py_ptr py_len py_buffer py_encode];
    unfold to_int32, to_uint32, wl_fixed_from_int, wl_fixed_from_double,
      str_encode;
    cbn [mbind result_bind to_int32];
    rewrite ?Hacc; cbv iota beta;
    try (destruct (py_not null); [|done]);
    try (destruct (utf8_encode _); [done|]);
    eauto.
Qed.

Lemma encode_arg_skips i null l st c :
  args_ptr l !! i = Some c →
  encode_arg i (null, ord "n") l st
  = Return ({| arg_iter := arg_iter l; args_ptr := <[i := NULL]> (args_ptr l);
               refs := refs l |}, st).
Proof.
  intros Hc. unfold encode_arg. eval_letters. unfold_run. by rewrite Hc.
Qed.

Lemma encode_loop_accepted ms : ∀ i l st,
  (i + length ms ≤ length (args_ptr l))%nat →
  (∃ l' st', encode_loop i ms l st = Return (l', st'))
  ↔ accepted ms (arg_iter l) = true.
Proof.
  induction ms as [|[null sig] ms IH]; intros i l st Hlen.
  - split; [done|]. intros _. by exists l, st.
  - simpl in Hlen. cbn [encode_loop accepted snd]. unfold mbind, M_bind.
    destruct (lookup_lt_is_Some_2 (args_ptr l) i) as [c Hc]; [lia|].
    destruct (Z.eqb_spec sig (ord "n")) as [->|Hn].
    { rewrite (encode_arg_skips _ _ _ _ c Hc).
      rewrite IH by (cbn [args_ptr]; rewrite length_insert; lia). done. }
    destruct (arg_iter l) as [|v it] eqn:Hit.
    { split; [|done]. intros (l' & st' & H). unfold encode_arg in H.
      rewrite (proj2 (Z.eqb_neq _ _) Hn), Hit in H. done. }
    destruct (accepts (null, sig) v) eqn:Hacc; cbn [andb].
    + destruct (encode_arg_accepts i (null, sig) l st v it c Hc Hit Hn Hacc)
        as (l1 & st1 & H1).
      rewrite H1.
      pose proof (encode_arg_frame _ _ _ _ _ _ H1)
        as (Hl1 & _ & _ & _ & _ & _ & Hit1 & _).
      unfold takes_arg in Hit1. cbn [snd] in Hit1.
      rewrite (proj2 (Z.eqb_neq _ _) Hn), Hit in Hit1. cbn in Hit1.
      rewrite ?drop_0 in Hit1. rewrite <- Hit1. apply IH. lia.
    + destruct (encode_arg_rejects i (null, sig) l st v it Hit Hn Hacc)
        as (e & ->).
      split; [by intros (? & ? & ?)|done].
Qed.

(** X8: [arguments_to_c] returns exactly on the value sequences that the
    signature accepts: new-id slots take no value, every other slot
    takes the next value and checks it (an integer of the C type, a
    number for a fixed, an encodable text or an object, [None] only
    with the question mark; no value at all passes an array slot), and
    values after the last one taken are not looked at; on every other
    sequence it raises.  The state of the interpreter plays no part. *)
Theorem arguments_to_c_accepted m args st :
  (∃ a st', arguments_to_c m args st = Return (a, st'))
  ↔ accepted (finditer (signature m)) args = true.
Proof.
  set (ms := finditer (signature m)).
  set (l0 := {| arg_iter := args; args_ptr := replicate (length ms) 0;
                refs := [] |}).
  set (st0 := {| next := next st
                         + Z.max 1 (sizeof_wl_argument * Z.of_nat (length ms));
                 mem := mem st; weakkeydict := weakkeydict st |}).
  assert (Hl : (0 + length ms ≤ length (args_ptr l0))%nat)
    by (cbn [l0 args_ptr]; rewrite length_replicate; lia).
  rewrite <- (encode_loop_accepted ms 0 l0 st0 Hl : _ ↔ accepted ms args = true).
  split.
  - intros (a & st' & H).
    apply arguments_to_c_Return in H as (l & st1 & Hloop & _). eauto.
  - intros (l & st1 & Hloop). unfold arguments_to_c, findall.
    unfold mbind at 1, M_bind, ffi_new_arguments. cbn [cells addr].
    fold ms. fold l0. fold st0.
    unfold mbind at 1, M_bind. rewrite Hloop.
    destruct (refs l); eauto.
Qed.

Lemma arguments_to_c_accepted_witness :
  (∃ a st',
     arguments_to_c (message "n?sou" [Some WlCore; None; Some WlCore; None])
       [VNone; VObj {| Proxy._ptr := 2048; Proxy.interface := WlCore |};
        VInt 4294967295; VInt 0] state0 = Return (a, st'))
  ∧ ¬ (∃ a st',
     arguments_to_c (message "u" [None]) [VInt (-1)] state0 = Return (a, st')).
Proof.
  split.
  - by apply (proj2 (arguments_to_c_accepted _ _ _)).
  - intros H. by apply (proj1 (arguments_to_c_accepted _ _ _)) in H.
Defined.

Lemma encode_arg_pure i null sig l st l' st' :
  sig ≠ ord "s" → sig ≠ ord "o" → sig ≠ ord "a" →
  encode_arg i (null, sig) l st = Return (l', st') →
  st' = st ∧ refs l' = refs l.
Proof.
  intros Hs Ho Ha. unfold encode_arg.
  case_sig sig; try congruence; unfold_run; intros H;
    repeat case_match; by simplify_eq.
Qed.

Lemma encode_loop_pure ms : ∀ i l st l' st',
  Forall (λ g : groups, g.2 ≠ ord "s" ∧ g.2 ≠ ord "o" ∧ g.2 ≠ ord "a") ms →
  encode_loop i ms l st = Return (l', st') →
  st' = st ∧ refs l' = refs l.
Proof.
  induction ms as [|[null sig] ms IH]; intros i l st l' st' Hms H;
    cbn [encode_loop] in H.
  - by apply mret_Return in H as [<- <-].
  - apply Forall_cons in Hms as [(Hs & Ho & Ha) Hms]. cbn [snd] in *.
    apply bind_Return in H as (l1 & st1 & H1 & H).
    apply encode_arg_pure in H1 as [-> <-]; try done.
    by apply IH in H.
Qed.

(** X9: for a signature without string, object and array slots a call that
    returns has allocated the argument array and nothing else: memory
    and [weakkeydict] are as before the call. *)
Theorem arguments_to_c_no_allocation m args st a st' :
  Forall (λ g : groups, g.2 ≠ ord "s" ∧ g.2 ≠ ord "o" ∧ g.2 ≠ ord "a")
    (finditer (signature m)) →
  arguments_to_c m args st = Return (a, st') →
  mem st' = mem st ∧ weakkeydict st' = weakkeydict st.
Proof.
  intros Hms H.
  apply arguments_to_c_Return in H as (l & st1 & Hloop & _ & _ & Hm & Hw).
  apply encode_loop_pure in Hloop as [-> Hr]; [|done].
  cbn [refs] in Hr. rewrite Hr in Hw. done.
Qed.

Lemma arguments_to_c_no_allocation_witness :
  ∃ a st',
    arguments_to_c (message "niuh" [Some WlRequests; None; None; None])
      [VInt (-5); VInt 7; VInt 3] state0 = Return (a, st')
    ∧ mem st' = ∅ ∧ weakkeydict st' = ∅.
Proof.
  destruct (arguments_to_c (message "niuh" [Some WlRequests; None; None; None])
              [VInt (-5); VInt 7; VInt 3] state0)
    as [[a st']|e] eqn:H; [|by vm_compute in H].
  exists a, st'. split; [done|].
  apply (arguments_to_c_no_allocation _ _ _ _ _) in H; [done|].
  change (finditer _) with
    ([([], ord "n"); ([], ord "i"); ([], ord "u"); ([], ord "h")] : list groups).
  repeat (apply List.Forall_cons; [by vm_compute|]). apply List.Forall_nil.
Defined.

(** ** String arguments *)

Lemma arguments_to_c_str m s st :
  signature m = str "s" ∨ signature m = str "?s" →
  arguments_to_c m [VStr s] st
  = match utf8_encode s with
    | Some bs =>
        Return ({| addr := next st; cells := [next st + 8] |},
                {| next := next st + 8 + (Z.of_nat (length bs) + 1);
                   mem := <[next st + 8 := BChars (bs ++ [0])]> (mem st);
                   weakkeydict := <[next st := [next st + 8]]> (weakkeydict st) |})
    | None => Raise UnicodeEncodeError
    end.
Proof.
  intros Hs. unfold arguments_to_c.
  assert (∃ null, finditer (signature m) = [(null, ord "s")]) as [null Hf].
  { destruct Hs as [-> | ->]; eexists; reflexivity. }
  unfold findall. rewrite Hf.
  unfold mbind at 1, M_bind, ffi_new_arguments. cbn [length replicate cells addr].
  change (Z.max 1 (sizeof_wl_argument * Z.of_nat 1)) with 8.
  cbn [encode_loop]. unfold encode_arg. eval_letters.
  cbn [arg_iter args_ptr refs is_None py_encode]. unfold str_encode.
  destruct (utf8_encode s) as [bs|]; [|reflexivity].
  unfold_run. cbn [next mem weakkeydict lookup list_lookup].
  rewrite Z.max_r by lia. reflexivity.
Qed.


(** X10: for a string slot and a text, [arguments_to_c] raises
    UnicodeEncodeError when the text holds a surrogate; otherwise it
    allocates a buffer with the UTF-8 bytes of the text and a final zero
    byte, writes its address into the cell and keeps the buffer alive
    under the argument array in [weakkeydict]. *)
Theorem arguments_to_c_string m s st :
  signature m = str "s" ∨ signature m = str "?s" →
  arguments_to_c m [VStr s] st
  = match utf8_encode s with
    | Some bs =>
        Return ({| addr := next st; cells := [next st + 8] |},
                {| next := next st + 8 + (Z.of_nat (length bs) + 1);
                   mem := <[next st + 8 := BChars (bs ++ [0])]> (mem st);
                   weakkeydict := <[next st := [next st + 8]]> (weakkeydict st) |})
    | None => Raise UnicodeEncodeError
    end.
Proof. apply arguments_to_c_str. Qed.

Lemma arguments_to_c_string_witness :
  arguments_to_c (message "?s" [None]) [VStr (str "hi")] state0
  = Return ({| addr := 4096; cells := [4104] |},
            {| next := 4107; mem := {[ 4104 := BChars [104; 105; 0] ]};
               weakkeydict := {[ 4096 := [4104] ]} |})
  ∧ arguments_to_c (message "s" [None]) [VStr [0xDC00]] state0
    = Raise UnicodeEncodeError.
Proof.
  split.
  - rewrite (arguments_to_c_string (message "?s" [None]) (str "hi") state0)
      by (by right).
    reflexivity.
  - rewrite (arguments_to_c_string (message "s" [None]) [0xDC00] state0)
      by (by left).
    reflexivity.
Defined.

Lemma c_string_app (cs r : list Z) :
  Forall (λ b, b ≠ 0) cs → c_string (cs ++ r) = cs ++ c_string r.
Proof.
  induction 1 as [|b cs Hb _ IH]; [done|].
  cbn [app c_string]. rewrite (proj2 (Z.eqb_neq b 0) Hb). by rewrite IH.
Qed.

(** The C string read back from the encoded text is the encoding of
    the text before its first NUL character. *)
Lemma utf8_c_string (s : list Z) :
  Forall scalar s → ∀ bs, utf8_encode s = Some bs →
  ∃ bs', utf8_encode (c_string s) = Some bs'
    ∧ c_string (bs ++ [0]) = bs'
    ∧ utf8_decode bs' = Some (c_string s).
Proof.
  induction 1 as [|c s Hc Hs IH]; intros bs Hbs.
  - injection Hbs as <-. by exists [].
  - cbn [utf8_encode] in Hbs.
    destruct (utf8_char_decode c Hc) as (cs & Hcs & Hcd & Hcz).
    rewrite Hcs in Hbs. destruct (utf8_encode s) as [r|] eqn:Hr; [|done].
    injection Hbs as <-. destruct (IH r eq_refl) as (bs' & He & Hstr & Hd).
    cbn [c_string]. destruct (Z.eqb_spec c 0) as [->|Hc0].
    + exists []. vm_compute in Hcs. injection Hcs as <-. done.
    + assert (0 < c) as Hpos by (unfold scalar in Hc; lia).
      exists (cs ++ bs'). cbn [utf8_encode]. rewrite Hcs, He.
      split; [done|]. split.
      * rewrite <- app_assoc, c_string_app by auto. by rewrite Hstr.
      * by rewrite Hcd, Hd.
Qed.

(** X11: A text passed for a string slot comes back cut at its first NUL
    character: the buffer is read as a C string.  A text without NUL
    comes back whole. *)
Theorem round_trip_string m s st :
  0 < next st → signature m = str "s" ∨ signature m = str "?s" →
  Forall scalar s →
  ∃ a st',
    arguments_to_c m [VStr s] st = Return (a, st')
    ∧ c_to_arguments m a st' = Return [VStr (c_string s)].
Proof.
  intros Hst Hsig Hs. rewrite arguments_to_c_str by done.
  destruct (utf8_round_trip s Hs) as (bs & He & _).
  rewrite He. destruct (utf8_c_string s Hs bs He) as (bs' & _ & Hstr & Hd).
  do 2 eexists. split; [reflexivity|].
  unfold c_to_arguments.
  assert (∃ null, finditer (signature m) = [(null, ord "s")]) as [null ->].
  { destruct Hsig as [-> | ->]; eexists; reflexivity. }
  cbn [decode_loop]. unfold decode_arg. cbn [cells addr lookup list_lookup].
  eval_letters.
  rewrite (proj2 (Z.eqb_neq _ NULL)); [|unfold NULL, sizeof_wl_argument; lia].
  unfold get_s, ffi_string.
  rewrite (proj2 (Z.eqb_neq _ NULL)); [|unfold NULL; lia].
  cbn [mem]. rewrite lookup_insert_eq. rewrite Hstr.
  cbn [mbind result_bind]. unfold bytes_decode. rewrite Hd. reflexivity.
Qed.

Lemma round_trip_string_witness :
  ∃ a st',
    arguments_to_c (message "s" [None]) [VStr [97; 0; 98]] state0
    = Return (a, st')
    ∧ c_to_arguments (message "s" [None]) a st' = Return [VStr [97]].
Proof.
  apply (round_trip_string (message "s" [None]) [97; 0; 98] state0);
    [reflexivity|by left|].
  repeat (apply List.Forall_cons; [unfold scalar; lia|]). apply List.Forall_nil.
Defined.

(** ** Round trip through new-id slots *)

Lemma decode_arg_newid st a i null acc c :
  cells a !! i = Some c → decode_arg st a i (null, ord "n") acc = Return acc.
Proof. intros Hc. unfold decode_arg. rewrite Hc. by eval_letters. Qed.

Lemma round_trip_loop_newid ms args :
  exact_args ms args →
  ∀ i l st,
    arg_iter l = args → (i + length ms ≤ length (args_ptr l))%nat →
    0 < next st →
    ∃ l' st',
      encode_loop i ms l st = Return (l', st')
      ∧ ∀ p st2 acc, 0 < p →
          (∀ q, q < next st' → mem st2 !! q = mem st' !! q) →
          ∃ vs, decode_loop st2 {| addr := p; cells := args_ptr l' |} i ms acc
                = Return (acc ++ vs)
                ∧ py_list_eq vs args = true.
Proof.
  induction 1 as [|null ms args _ IH|g v ms args Hv _ IH];
    intros i l st Hit Hlen Hst.
  - exists l, st. split; [done|]. intros p st2 acc _ _.
    exists []. by rewrite app_nil_r.
  - simpl in Hlen.
    destruct (lookup_lt_is_Some_2 (args_ptr l) i) as [c0 Hc0]; [lia|].
    destruct (IH (S i) {| arg_iter := arg_iter l;
                          args_ptr := <[i := NULL]> (args_ptr l);
                          refs := refs l |} st)
      as (l' & st' & Hloop & Hdl); [done| |done|].
    { cbn [args_ptr]. rewrite length_insert. lia. }
    pose proof (encode_loop_frame _ _ _ _ _ _ Hloop) as (Hl & _).
    cbn [args_ptr] in Hl. rewrite length_insert in Hl.
    exists l', st'. split.
    { cbn [encode_loop]. unfold mbind, M_bind.
      by rewrite (encode_arg_skips _ _ _ _ c0 Hc0). }
    intros p st2 acc Hp Hst2.
    destruct (lookup_lt_is_Some_2 (args_ptr l') i) as [c Hc]; [lia|].
    destruct (Hdl p st2 acc Hp Hst2) as (vs & Hd & Heq).
    exists vs. cbn [decode_loop].
    rewrite (decode_arg_newid _ _ _ _ _ c) by done. done.
  - simpl in Hlen.
    destruct (lookup_lt_is_Some_2 (args_ptr l) i) as [c0 Hc0]; [lia|].
    destruct (encode_exact i g v l st c0 args Hv Hit Hc0 Hst)
      as (c & refs' & st1 & He & Hdec).
    pose proof (encode_arg_frame _ _ _ _ _ _ He)
      as (_ & _ & _ & Hnext1 & _).
    destruct (IH (S i) {| arg_iter := args;
                          args_ptr := <[i := c]> (args_ptr l);
                          refs := refs' |} st1)
      as (l' & st' & Hloop & Hdl); [done| |lia|].
    { cbn [args_ptr]. rewrite length_insert. lia. }
    pose proof (encode_loop_frame _ _ _ _ _ _ Hloop)
      as (_ & Hcells & Hnext & Hmem & _).
    exists l', st'. split.
    { cbn [encode_loop]. unfold mbind, M_bind. by rewrite He. }
    intros p st2 acc Hp Hst2.
    destruct (Hdec {| addr := p; cells := args_ptr l' |} st2 acc)
      as (v' & Hd1 & Heq1); [|done| |].
    { cbn [cells]. rewrite Hcells by lia. cbn [args_ptr].
      apply list_lookup_insert_eq. by eapply lookup_lt_Some. }
    { intros q Hq. rewrite Hst2, Hmem by lia. done. }
    destruct (Hdl p st2 (acc ++ [v']) Hp Hst2) as (vs & Hd2 & Heq2).
    exists (v' :: vs). cbn [decode_loop]. rewrite Hd1. cbn [mbind result_bind].
    rewrite Hd2, <- app_assoc. split; [done|].
    cbn [py_list_eq]. by rewrite Heq1, Heq2.
Qed.

(** X12: the values also come back through new-id slots: such a slot takes
    no value when encoding and gives none when decoding, so for a
    signature of new-id, integer, fixed, descriptor and string slots
    and exact values for the slots that take one, decoding the array
    that encoding returns gives a list equal to the values. *)
Theorem round_trip_newid m args st :
  0 < next st →
  exact_args (finditer (signature m)) args →
  ∃ a st' vs,
    arguments_to_c m args st = Return (a, st')
    ∧ c_to_arguments m a st' = Return vs
    ∧ py_list_eq vs args = true.
Proof.
  intros Hst Hargs. unfold arguments_to_c, c_to_arguments, findall.
  set (nargs := length (finditer (signature m))).
  set (st0 := {| next := next st + Z.max 1 (sizeof_wl_argument * Z.of_nat nargs);
                 mem := mem st; weakkeydict := weakkeydict st |}).
  destruct (round_trip_loop_newid _ _ Hargs 0%nat
              {| arg_iter := args; args_ptr := replicate nargs 0; refs := [] |}
              st0)
    as (l' & st' & Hloop & Hdl); [done| |cbn [next st0]; lia|].
  { cbn [args_ptr]. rewrite length_replicate. subst nargs. lia. }
  unfold mbind at 1, M_bind, ffi_new_arguments. fold st0. cbn [cells addr].
  unfold mbind at 1, M_bind. rewrite Hloop.
  destruct (refs l') as [|r rs].
  - destruct (Hdl (next st) st' []) as (vs & Hvs & Heq); [done..|].
    by exists {| addr := next st; cells := args_ptr l' |}, st', vs.
  - destruct (Hdl (next st)
                {| next := next st'; mem := mem st';
                   weakkeydict := <[next st := r :: rs]> (weakkeydict st') |} [])
      as (vs & Hvs & Heq); [done..|].
    by eexists {| addr := next st; cells := args_ptr l' |}, _, vs.
Qed.

Lemma round_trip_newid_witness :
  ∃ a st' vs,
    arguments_to_c (message "niuh" [Some WlRequests; None; None; None])
      [VInt (-5); VInt 7; VInt 3] state0 = Return (a, st')
    ∧ c_to_arguments (message "niuh" [Some WlRequests; None; None; None]) a st'
      = Return vs
    ∧ py_list_eq vs [VInt (-5); VInt 7; VInt 3] = true.
Proof.
  apply round_trip_newid; [reflexivity|].
  change (finditer _) with
    ([([], ord "n"); ([], ord "i"); ([], ord "u"); ([], ord "h")] : list groups).
  apply exact_args_newid.
  apply exact_args_value; [apply exact_i; lia|].
  apply exact_args_value; [apply exact_u; lia|].
  apply exact_args_value; [apply exact_h; lia|].
  apply exact_args_nil.
Defined.

(** ** [c_to_arguments]: numbers, errors and what it never returns *)

Lemma decode_arg_number a i null sig acc c :
  cells a !! i = Some c → sig ≠ ord "s" → Forall wire_value acc →
  ∃ acc', (∀ st, decode_arg st a i (null, sig) acc = Return acc')
          ∧ Forall wire_value acc'.
Proof.
  intros Hc Hs Hacc. unfold decode_arg. rewrite Hc.
  assert (Hi : wire_value (VInt (wrap32 c))).
  { pose proof (wrap32_range c). unfold wire_value. lia. }
  case_sig sig; try congruence; cbn [orb]; eexists; (split; [done|]);
    try done; apply Forall_app; (split; [done|]);
    (apply List.Forall_cons; [|apply List.Forall_nil]);
    try exact Hi.
  - unfold get_u, wire_value. lia_div.
  - exists (get_f c). split; [apply wrap32_range|done].
Qed.

Lemma decode_loop_numbers a ms : ∀ i acc,
  Forall (λ g : groups, g.2 ≠ ord "s") ms →
  (i + length ms ≤ length (cells a))%nat → Forall wire_value acc →
  ∃ vs, (∀ st, decode_loop st a i ms acc = Return vs) ∧ Forall wire_value vs.
Proof.
  induction ms as [|[null sig] ms IH]; intros i acc Hms Hlen Hacc.
  - by exists acc.
  - apply Forall_cons in Hms as [Hs Hms]. cbn [snd] in Hs. simpl in Hlen.
    destruct (lookup_lt_is_Some_2 (cells a) i) as [c Hc]; [lia|].
    destruct (decode_arg_number a i null sig acc c Hc Hs Hacc)
      as (acc' & Hd & Hacc').
    destruct (IH (S i) acc' Hms) as (vs & Hvs & Hw); [lia|done|].
    exists vs. split; [|done]. intros st. cbn [decode_loop].
    rewrite Hd. apply Hvs.
Qed.

(** X13: for a signature without string slots and an array with a cell for
    every argument, [c_to_arguments] cannot fail and reads no memory
    but the array: it returns the same list in every state, and every
    value of the list is a 32-bit integer or a multiple of 1/256 with
    a 32-bit numerator. *)
Theorem c_to_arguments_numbers m a st :
  Forall (λ g : groups, g.2 ≠ ord "s") (finditer (signature m)) →
  (length (finditer (signature m)) ≤ length (cells a))%nat →
  ∃ vs, c_to_arguments m a st = Return vs
        ∧ Forall wire_value vs
        ∧ ∀ st2, c_to_arguments m a st2 = Return vs.
Proof.
  intros Hms Hlen.
  destruct (decode_loop_numbers a (finditer (signature m)) 0 [] Hms)
    as (vs & Hvs & Hw); [lia|done|].
  exists vs. unfold c_to_arguments. auto.
Qed.

Lemma c_to_arguments_numbers_witness :
  ∃ vs, c_to_arguments (message "niufh" [Some WlCore; None; None; None; None])
          {| addr := 4096; cells := [0; 4294967291; 4294967291; 384; 3] |}
          state0 = Return vs
        ∧ Forall wire_value vs
        ∧ ∀ st2, c_to_arguments
                   (message "niufh" [Some WlCore; None; None; None; None])
                   {| addr := 4096; cells := [0; 4294967291; 4294967291; 384; 3] |}
                   st2 = Return vs.
Proof.
  apply c_to_arguments_numbers; [|vm_compute; lia].
  change (finditer _) with
    ([([], ord "n"); ([], ord "i"); ([], ord "u"); ([], ord "f"); ([], ord "h")]
     : list groups).
  repeat (apply List.Forall_cons; [by vm_compute|]). apply List.Forall_nil.
Defined.

Lemma decode_arg_outcomes st a i g acc :
  0 < addr a →
  match decode_arg st a i g acc with
  | Return acc' => acc' = acc ∨ ∃ v, acc' = acc ++ [v] ∧ v ≠ VNone
  | Raise e =>
      e = IndexError ∨ e = RuntimeError ∨ e = UnicodeDecodeError
      ∨ e = MemoryFault
  end.
Proof.
  intros Ha. destruct g as [null sig]. unfold decode_arg.
  destruct (cells a !! i) as [c|]; [|auto].
  case_sig sig; cbn [orb]; eauto.
  rewrite (proj2 (Z.eqb_neq _ NULL)); [|unfold NULL, sizeof_wl_argument; lia].
  unfold ffi_string. destruct (get_s c =? NULL); [cbn; auto|].
  destruct (mem st !! get_s c) as [[bs| | |]|]; cbn; auto.
  unfold bytes_decode. destruct (utf8_decode (c_string bs)); cbn; eauto.
Qed.

Lemma decode_loop_outcomes st a ms : ∀ i acc,
  0 < addr a → Forall (λ v, v ≠ VNone) acc →
  match decode_loop st a i ms acc with
  | Return vs => Forall (λ v, v ≠ VNone) vs
  | Raise e =>
      e = IndexError ∨ e = RuntimeError ∨ e = UnicodeDecodeError
      ∨ e = MemoryFault
  end.
Proof.
  induction ms as [|g ms IH]; intros i acc Ha Hacc; [done|].
  cbn [decode_loop]. pose proof (decode_arg_outcomes st a i g acc Ha) as Hd.
  destruct (decode_arg st a i g acc) as [acc'|e]; [|done].
  cbn [mbind result_bind]. apply IH; [done|].
  destruct Hd as [->|(v & -> & Hv)]; [done|].
  apply Forall_app. split; [done|]. by constructor.
Qed.

(** X14: on an array that is not at the NULL address, [c_to_arguments]
    never raises the bare [Exception] of its null check and never
    returns [None] for an argument: the check compares the address of
    the cell with NULL, so its branch is never entered.  The only
    exceptions are IndexError (array too short), RuntimeError (a NULL
    string), UnicodeDecodeError (a string that is not UTF-8) and the
    fault of reading a pointer that is not live. *)
Theorem c_to_arguments_outcomes m a st :
  0 < addr a →
  match c_to_arguments m a st with
  | Return vs => Forall (λ v, v ≠ VNone) vs
  | Raise e =>
      e = IndexError ∨ e = RuntimeError ∨ e = UnicodeDecodeError
      ∨ e = MemoryFault
  end.
Proof. intros Ha. by apply decode_loop_outcomes. Qed.

Lemma c_to_arguments_outcomes_witness :
  match c_to_arguments (message "i?s" [None; None])
          {| addr := 4096; cells := [5; NULL] |} state0 with
  | Return vs => Forall (λ v, v ≠ VNone) vs
  | Raise e =>
      e = IndexError ∨ e = RuntimeError ∨ e = UnicodeDecodeError
      ∨ e = MemoryFault
  end.
Proof. apply c_to_arguments_outcomes. reflexivity. Defined.

(** ** Decoding, then encoding *)

Lemma get_u_set_low32_mod v c : get_u (set_low32 v c) = v mod 2 ^ 32.
Proof.
  unfold get_u, set_low32.
  rewrite Z.add_comm, Z.mod_add by lia. by rewrite Z.mod_mod by lia.
Qed.

Lemma wrap32_mod c : wrap32 c mod 2 ^ 32 = c mod 2 ^ 32.
Proof.
  unfold wrap32. destruct (Z.ltb_spec (c mod 2 ^ 32) (2 ^ 31)).
  - by rewrite Z.mod_mod by lia.
  - replace (c mod 2 ^ 32 - 2 ^ 32) with (c mod 2 ^ 32 + (-1) * 2 ^ 32) by lia.
    rewrite Z.mod_add by lia. by rewrite Z.mod_mod by lia.
Qed.

(** One numeric slot: the value decoded from a cell, encoded again,
    gives a cell with the same 32-bit member. *)
Lemma reverse_slot a i null sig c :
  cells a !! i = Some c →
  sig = ord "i" ∨ sig = ord "u" ∨ sig = ord "f" ∨ sig = ord "h" →
  ∃ v,
    (∀ st acc, decode_arg st a i (null, sig) acc = Return (acc ++ [v]))
    ∧ ∀ l st it c0, arg_iter l = v :: it → args_ptr l !! i = Some c0 →
        ∃ c', encode_arg i (null, sig) l st
              = Return ({| arg_iter := it; args_ptr := <[i := c']> (args_ptr l);
                           refs := refs l |}, st)
              ∧ get_u c' = get_u c.
Proof.
  intros Hc Hsig. unfold decode_arg. rewrite Hc.
  pose proof (wrap32_range c) as Hw.
  destruct Hsig as [-> | [-> | [-> | ->]]]; eval_letters;
    eexists; (split; [done|]); intros l st it c0 Hit Hc0;
    unfold encode_arg; eval_letters; rewrite Hit; cbv iota.
  - unfold get_i. rewrite (to_int32_Return (wrap32 c)) by done.
    unfold_run. rewrite Hc0. eexists. split; [done|].
    by rewrite get_u_set_low32_mod, wrap32_mod.
  - assert (0 ≤ get_u c < 2 ^ 32) by (unfold get_u; lia_div).
    rewrite (to_uint32_Return (get_u c)) by done.
    unfold_run. rewrite Hc0. eexists. split; [done|].
    rewrite get_u_set_low32_mod. unfold get_u. by rewrite Z.mod_mod by lia.
  - cbn [isinstance_int wl_fixed_from_double]. unfold wl_fixed_to_double, get_f.
    rewrite (round_half_even_exact _ (wrap32 c))
      by (cbn [Qnum Qden Qmult]; lia).
    rewrite (wrap32_small (wrap32 c)) by done. unfold_run. cbv beta iota.
    rewrite (to_int32_Return (wrap32 c)) by done.
    rewrite Hc0. eexists. split; [done|].
    by rewrite get_u_set_low32_mod, wrap32_mod.
  - unfold get_h. rewrite (to_int32_Return (wrap32 c)) by done.
    unfold_run. rewrite Hc0. eexists. split; [done|].
    by rewrite get_u_set_low32_mod, wrap32_mod.
Qed.

Lemma reverse_loop a ms :
  Forall (λ g : groups, g.2 = ord "i" ∨ g.2 = ord "u" ∨ g.2 = ord "f"
                        ∨ g.2 = ord "h") ms →
  ∀ i, (i + length ms ≤ length (cells a))%nat →
  ∃ vs,
    (∀ st acc, decode_loop st a i ms acc = Return (acc ++ vs))
    ∧ ∀ l st rest,
        arg_iter l = vs ++ rest →
        (i + length ms ≤ length (args_ptr l))%nat →
        ∃ l', encode_loop i ms l st = Return (l', st)
              ∧ length (args_ptr l') = length (args_ptr l)
              ∧ ∀ j, (i ≤ j < i + length ms)%nat →
                  get_u <$> args_ptr l' !! j = get_u <$> cells a !! j.
Proof.
  induction 1 as [|[null sig] ms Hg _ IH]; intros i Hlen.
  - exists []. split; [intros; by rewrite app_nil_r|].
    intros l st rest _ _. exists l. split; [done|]. split; [done|].
    intros j Hj. simpl in Hj. lia.
  - simpl in Hlen. cbn [snd] in Hg.
    destruct (lookup_lt_is_Some_2 (cells a) i) as [c Hc]; [lia|].
    destruct (reverse_slot a i null sig c Hc Hg) as (v & Hdec & Henc).
    destruct (IH (S i)) as (vs & Hdl & Hel); [lia|].
    exists (v :: vs). split.
    + intros st acc. cbn [decode_loop]. rewrite Hdec. cbn [mbind result_bind].
      rewrite Hdl. by rewrite <- app_assoc.
    + intros l st rest Hit Hl. simpl in Hl.
      destruct (lookup_lt_is_Some_2 (args_ptr l) i) as [c0 Hc0]; [lia|].
      destruct (Henc l st (vs ++ rest) c0 Hit Hc0) as (c' & He & Hu).
      destruct (Hel {| arg_iter := vs ++ rest;
                       args_ptr := <[i := c']> (args_ptr l);
                       refs := refs l |} st rest)
        as (l' & Hloop & Hlen' & Hcells); [done| |].
      { cbn [args_ptr]. rewrite length_insert. lia. }
      cbn [args_ptr] in Hlen'. rewrite length_insert in Hlen'.
      exists l'. split; [|split; [done|]].
      { cbn [encode_loop]. unfold mbind, M_bind. by rewrite He. }
      intros j Hj. destruct (decide (j = i)) as [->|Hne].
      * pose proof (encode_loop_frame _ _ _ _ _ _ Hloop) as (_ & Hfr & _).
        rewrite Hfr by lia. cbn [args_ptr].
        rewrite list_lookup_insert_eq by (by eapply lookup_lt_Some).
        rewrite Hc. cbn. by rewrite Hu.
      * apply Hcells. simpl in Hj. lia.
Qed.

(** X15: decoding an array and encoding the values again gives the same
    32-bit members: for a signature of integer, fixed and descriptor
    slots and an array with a cell for every argument,
    [c_to_arguments] returns and [arguments_to_c] on the values it
    returned gives an array whose cells agree with the first one in
    their low four bytes. *)
Theorem round_trip_cells m a st :
  Forall (λ g : groups, g.2 = ord "i" ∨ g.2 = ord "u" ∨ g.2 = ord "f"
                        ∨ g.2 = ord "h") (finditer (signature m)) →
  (length (finditer (signature m)) ≤ length (cells a))%nat →
  ∃ vs a' st',
    c_to_arguments m a st = Return vs
    ∧ arguments_to_c m vs st = Return (a', st')
    ∧ length (cells a') = length (finditer (signature m))
    ∧ ∀ j, (j < length (finditer (signature m)))%nat →
        get_u <$> cells a' !! j = get_u <$> cells a !! j.
Proof.
  intros Hms Hlen.
  destruct (reverse_loop a _ Hms 0%nat) as (vs & Hdl & Hel); [lia|].
  set (ms := finditer (signature m)) in *.
  set (st0 := {| next := next st
                         + Z.max 1 (sizeof_wl_argument * Z.of_nat (length ms));
                 mem := mem st; weakkeydict := weakkeydict st |}).
  destruct (Hel {| arg_iter := vs; args_ptr := replicate (length ms) 0;
                   refs := [] |} st0 [])
    as (l' & Hloop & Hlen' & Hcells).
  { by rewrite app_nil_r. }
  { cbn [args_ptr]. rewrite length_replicate. lia. }
  cbn [args_ptr] in Hlen'. rewrite length_replicate in Hlen'.
  exists vs. unfold c_to_arguments, arguments_to_c, findall. fold ms.
  unfold mbind at 1, M_bind, ffi_new_arguments. cbn [cells addr]. fold st0.
  unfold mbind at 1, M_bind. rewrite Hloop.
  destruct (refs l'); do 2 eexists;
    (split; [apply (Hdl st [])|]); (split; [reflexivity|]);
    cbn [cells]; (split; [done|]); intros j Hj; apply Hcells; lia.
Qed.

Lemma round_trip_cells_witness :
  ∃ vs a' st',
    c_to_arguments (message "iufh" [None; None; None; None])
      {| addr := 64; cells := [-1; 2 ^ 40 + 7; 2 ^ 32 - 128; 3; 99] |} state0
    = Return vs
    ∧ arguments_to_c (message "iufh" [None; None; None; None]) vs state0
      = Return (a', st')
    ∧ length (cells a') = 4%nat
    ∧ ∀ j, (j < 4)%nat →
        get_u <$> cells a' !! j
        = get_u <$> [-1; 2 ^ 40 + 7; 2 ^ 32 - 128; 3; 99] !! j.
Proof.
  apply (round_trip_cells (message "iufh" [None; None; None; None])
           {| addr := 64; cells := [-1; 2 ^ 40 + 7; 2 ^ 32 - 128; 3; 99] |}
           state0); [|vm_compute; lia].
  change (finditer _) with
    ([([], ord "i"); ([], ord "u"); ([], ord "f"); ([], ord "h")] : list groups).
  repeat (apply List.Forall_cons; [by vm_compute; auto|]). apply List.Forall_nil.
Defined.

(** ** What [weakkeydict] keeps alive *)

Lemma encode_arg_keepalive base i g l st l' st' :
  encode_arg i g l st = Return (l', st') →
  (∀ p, next st ≤ p → mem st !! p = None) →
  (∀ p, base ≤ p → is_Some (mem st !! p) → p ∈ refs l) →
  (∀ p, next st' ≤ p → mem st' !! p = None)
  ∧ (∀ p, base ≤ p → is_Some (mem st' !! p) → p ∈ refs l').
Proof.
  destruct g as [null sig]. unfold encode_arg. intros H Hwf Hrefs.
  unfold_run.
  repeat case_match; simplify_eq; cbn [next mem refs]; split;
    try done; intros p Hp; try intros Hsome;
    rewrite ?elem_of_app, ?elem_of_cons;
    repeat (apply lookup_insert_is_Some in Hsome as [<-|[? Hsome]]);
    rewrite ?lookup_insert_ne by lia;
    auto; try (by apply Hwf; lia).
Qed.

Lemma encode_loop_keepalive base ms : ∀ i l st l' st',
  encode_loop i ms l st = Return (l', st') →
  (∀ p, next st ≤ p → mem st !! p = None) →
  (∀ p, base ≤ p → is_Some (mem st !! p) → p ∈ refs l) →
  ∀ p, base ≤ p → is_Some (mem st' !! p) → p ∈ refs l'.
Proof.
  induction ms as [|g ms IH]; intros i l st l' st' H Hwf Hrefs;
    cbn [encode_loop] in H.
  - by apply mret_Return in H as [<- <-].
  - apply bind_Return in H as (l1 & st1 & H1 & H).
    destruct (encode_arg_keepalive base _ _ _ _ _ _ H1 Hwf Hrefs)
      as [Hwf1 Hrefs1].
    by apply (IH _ _ _ _ _ H).
Qed.

(** X16: every buffer that a call of [arguments_to_c] allocates is kept
    alive by the array it returns: in a state where nothing lives at
    or above the next free address, whatever is allocated once the
    call has returned is listed in [weakkeydict] under the address of
    the array. *)
Theorem arguments_to_c_keepalive m args st a st' p :
  (∀ q, next st ≤ q → mem st !! q = None) →
  arguments_to_c m args st = Return (a, st') →
  next st ≤ p → is_Some (mem st' !! p) →
  ∃ refs, weakkeydict st' !! addr a = Some refs ∧ p ∈ refs.
Proof.
  intros Hwf H Hp Hsome.
  apply arguments_to_c_Return in H as (l & st1 & Hloop & -> & _ & Hm & Hw).
  rewrite Hm in Hsome.
  pose proof (encode_loop_keepalive (next st) _ _ _ _ _ _ Hloop) as Hk.
  cbn [next mem refs] in Hk.
  assert (Hin : p ∈ refs l).
  { apply Hk; try done.
    - intros q Hq. apply Hwf. lia.
    - intros q Hq [b Hb]. rewrite Hwf in Hb by done. done. }
  exists (refs l). split; [|done]. cbn [addr]. rewrite Hw.
  destruct (refs l) as [|r rs]; [by apply elem_of_nil in Hin|].
  by rewrite lookup_insert_eq.
Qed.

Lemma arguments_to_c_keepalive_witness :
  ∃ a st' refs,
    arguments_to_c (message "ss" [None; None]) [VStr (str "hi"); VStr (str "yo")]
      state0 = Return (a, st')
    ∧ is_Some (mem st' !! 4115)
    ∧ weakkeydict st' !! addr a = Some refs ∧ 4115 ∈ refs.
Proof.
  destruct (arguments_to_c (message "ss" [None; None])
              [VStr (str "hi"); VStr (str "yo")] state0)
    as [[a st']|e] eqn:H; [|by vm_compute in H].
  assert (Hs : is_Some (mem st' !! 4115)).
  { vm_compute in H. injection H as _ <-. by eexists. }
  destruct (arguments_to_c_keepalive _ _ state0 _ _ 4115
              (λ q _, lookup_empty q) H)
    as (refs & Hw & Hin); [by vm_compute|exact Hs|].
  by exists a, st', refs.
Defined.

(** ** The nullable flag in [c_to_arguments] *)

Lemma decode_arg_flag st a i null1 null2 sig acc :
  0 < addr a →
  decode_arg st a i (null1, sig) acc = decode_arg st a i (null2, sig) acc.
Proof.
  intros Ha. unfold decode_arg. destruct (cells a !! i) as [c|]; [|done].
  by rewrite (proj2 (Z.eqb_neq _ NULL))
    by (unfold NULL, sizeof_wl_argument; lia).
Qed.

Lemma decode_loop_flag st a ms1 : ∀ ms2 i acc,
  0 < addr a → ms1.*2 = ms2.*2 →
  decode_loop st a i ms1 acc = decode_loop st a i ms2 acc.
Proof.
  induction ms1 as [|[n1 s1] ms1 IH]; intros [|[n2 s2] ms2] i acc Ha Hs;
    try done.
  cbn in Hs. injection Hs as -> Hs. cbn [decode_loop].
  rewrite (decode_arg_flag st a i n1 n2 s2 acc Ha).
  destruct (decode_arg st a i (n2, s2) acc); [|done]. cbn. by apply IH.
Qed.

(** X17: [c_to_arguments] takes no account of the question marks of the
    signature: on an array that is not at the NULL address, two
    messages whose signatures have the same kind letters in the same
    order decode every array alike, values and exceptions. *)
Theorem c_to_arguments_flag m1 m2 a st :
  0 < addr a →
  (finditer (signature m1)).*2 = (finditer (signature m2)).*2 →
  c_to_arguments m1 a st = c_to_arguments m2 a st.
Proof. intros Ha Hs. by apply decode_loop_flag. Qed.

Lemma c_to_arguments_flag_witness :
  c_to_arguments (message "i?so" [None; None; None])
    {| addr := 4096; cells := [5; NULL; 7] |} state0
  = c_to_arguments (message "is?o" [None; None; None])
      {| addr := 4096; cells := [5; NULL; 7] |} state0.
Proof. apply c_to_arguments_flag; reflexivity. Defined.

(** ** The events of the scanner fixture *)

Lemma event_message f sig tys st :
  encodable (strip (str "_") (str f)) = true → encodable (str sig) = true →
  ∃ m st', Message_init {| __name__ := str f |} (str sig) tys st
           = Return (m, st')
           ∧ name m = strip (str "_") (str f).
Proof.
  unfold encodable. intros Hn Hs.
  destruct (utf8_encode (strip (str "_") (str f))) as [nb|] eqn:En; [|done].
  destruct (utf8_encode (str sig)) as [sb|] eqn:Es; [|done].
  destruct (Message_init_encodable {| __name__ := str f |} (str sig) tys st
              nb sb En Es) as (st' & Hrun & _).
  eexists _, st'. by split.
Qed.

Ltac slot_iff :=
  cbn [snd]; split;
  [ intros [? Hx];
    first [discriminate Hx | by left | by right]
  | intros [Hx|Hx]; first [by vm_compute in Hx | by eexists] ].

Ltac slots :=
  match goal with
  | |- context [finditer ?s] =>
      let x := eval vm_compute in (finditer s) in change (finditer s) with x
  end;
  repeat (apply List.Forall2_cons; [slot_iff|]); apply List.Forall2_nil.

(** X18: every event declared in the fixture gives a message: from any
    state [__init__] returns, the name of the message is the name of
    the function as written, and the type list has one entry per
    argument of the signature, an interface exactly at the new-id and
    object slots. *)
Theorem wl_events_messages st :
  Forall (λ '(f, sig, tys),
            (∃ m st', Message_init {| __name__ := str f |} (str sig) tys st
                      = Return (m, st')
                      ∧ name m = str f)
            ∧ Forall2 (λ (g : groups) t,
                         is_Some t ↔ (g.2 = ord "n" ∨ g.2 = ord "o"))
                (finditer (str sig)) tys)
    wl_events.
Proof.
  unfold wl_events.
  repeat (apply List.Forall_cons;
          [split; [by apply event_message|slots]|]).
  apply List.Forall_nil.
Qed.
